(** * srp-auth: a shallow embedding of the SRP-6a client and server-setup code

    The development follows the TypeScript sources of knokbak/srp-auth:

    - [util/math]   : [toBigInt], [toUint8Array], [toHex], [powMod], [doesMatch]
    - [util/hash]   : [hash], over an abstract digest primitive (hash-wasm)
    - [util/error]  : the two error classes
    - [util/groups] : a [Group] is any pair of a modulus and a generator (the
      table of the standard groups is not needed here)
    - [util/random] : the bytes [random(256)] returns are an argument of [init]
    - [client/authenticate] : the [ClientAuthenticate] class, as a state and
      exception monad over the record of its fields
    - [client/setup] : the [ClientSetup] class; the bytes [random(saltLength)]
      returns are an argument of its constructor
    - [server/setup] : the [ServerSetup] class

    JavaScript [bigint] is [Z]; a [Uint8Array] is a [list byte]; a JavaScript
    string is a [string].  A call either returns, throws, or loops for ever:
    the three cases of [completion]. *)

From Stdlib Require Import ZArith List String Ascii Bool Lia.
From Stdlib.Strings Require Import Byte.
Import ListNotations.

Local Open Scope string_scope.
Local Open Scope Z_scope.

(** ** Errors and completions *)

(** [util/error]: [SRPError] and its subclass [SRPSecurityViolation]; the two
    native errors the code can run into are [SyntaxError] (raised by
    [BigInt(text)] on a malformed literal) and [RangeError] (raised by the
    [bigint] remainder on a zero divisor). *)
Inductive exn : Type :=
| SRPError (message : string)
| SRPSecurityViolation (message : string)
| SyntaxError
| RangeError.

Inductive completion (T : Type) : Type :=
| Return (v : T)
| Throw (e : exn)
| Diverge.

Arguments Return {T} v.
Arguments Throw {T} e.
Arguments Diverge {T}.

Definition cbind {T U : Type} (c : completion T) (k : T -> completion U)
  : completion U :=
  match c with
  | Return v => k v
  | Throw e => Throw e
  | Diverge => Diverge
  end.

Notation "'let*' x ':=' c 'in' k" := (cbind c (fun x => k))
  (at level 10, x name, c at level 100, k at level 200).

Definition Uint8Array : Type := list byte.

Definition byte_to_Z (b : byte) : Z := Z.of_N (Byte.to_N b).

(** Storing a number into a [Uint8Array] slot keeps it modulo 256; [NaN]
    (here [None]) is stored as 0. *)
Definition ToUint8 (v : option Z) : byte :=
  match v with
  | Some z =>
      match Byte.of_N (Z.to_N (z mod 256)) with
      | Some b => b
      | None => x00
      end
  | None => x00
  end.

(** ** The JavaScript built-ins the code calls *)

Module JS.

(** The digit of [toString(16)] for a value in 0..15. *)
Definition hex_char (d : Z) : ascii :=
  match d with
  | 0 => "0" | 1 => "1" | 2 => "2" | 3 => "3" | 4 => "4"
  | 5 => "5" | 6 => "6" | 7 => "7" | 8 => "8" | 9 => "9"
  | 10 => "a" | 11 => "b" | 12 => "c" | 13 => "d" | 14 => "e"
  | _ => "f"
  end%char.

(** The value of a hexadecimal digit, either case, as the parsers read it:
    the code of the character is in "0".."9" (48..57), in "a".."f"
    (97..102) or in "A".."F" (65..70). *)
Definition hex_value (c : ascii) : option Z :=
  let code := Z.of_N (N_of_ascii c) in
  if (48 <=? code) && (code <=? 57) then Some (code - 48)
  else if (97 <=? code) && (code <=? 102) then Some (code - 87)
  else if (65 <=? code) && (code <=? 70) then Some (code - 55)
  else None.

(** ASCII white space (tab, line feed, vertical tab, form feed, carriage
    return, space), which [BigInt(text)] strips around the literal. *)
Definition is_white (c : ascii) : bool :=
  match c with
  | "009" | "010" | "011" | "012" | "013" | " " => true
  | _ => false
  end%char.

Fixpoint all_white (s : string) : bool :=
  match s with
  | EmptyString => true
  | String c r => is_white c && all_white r
  end.

(** The digits of a positive [n], most significant first, put in front of
    [acc].  [Z.log2 n + 1] rounds are more than the number of digits. *)
Fixpoint hex_digits (rounds : nat) (n : Z) (acc : string) : string :=
  match rounds with
  | O => acc
  | S r =>
      if n <? 16 then String (hex_char n) acc
      else hex_digits r (n / 16) (String (hex_char (n mod 16)) acc)
  end.

(** [n.toString(16)] for an integer [n] (a [bigint], or a [number] holding
    an integer): lower-case digits, no leading zero, ["-"] in front of a
    negative value. *)
Definition toString16 (n : Z) : string :=
  if n <? 0
  then String "-" (hex_digits (S (Z.to_nat (Z.log2 (- n)))) (- n) "")
  else hex_digits (S (Z.to_nat (Z.log2 n))) n "".

(** [text.padStart(2, '0')]. *)
Definition padStart2 (text : string) : string :=
  match text with
  | EmptyString => "00"
  | String c EmptyString => String "0" text
  | _ => text
  end.

(** [text.startsWith('0x')]. *)
Definition startsWith0x (text : string) : bool :=
  match text with
  | String "0" (String "x" _) => true
  | _ => false
  end.

(** The digits of a hexadecimal literal after its first digit: digits are
    accumulated, and what follows the last digit must be white space. *)
Fixpoint hex_literal_tail (acc : Z) (text : string) : option Z :=
  match text with
  | EmptyString => Some acc
  | String c r =>
      match hex_value c with
      | Some d => hex_literal_tail (acc * 16 + d) r
      | None => if all_white text then Some acc else None
      end
  end.

(** [BigInt(text)] on a [text] that starts with ["0x"], which is how every
    call of the code builds its argument: the literal needs at least one
    digit, and anything else than digits and trailing white space is a
    [SyntaxError]. *)
Definition BigInt (text : string) : completion Z :=
  match text with
  | String "0" (String "x" (String c r)) =>
      match hex_value c with
      | Some d =>
          match hex_literal_tail d r with
          | Some n => Return n
          | None => Throw SyntaxError
          end
      | None => Throw SyntaxError
      end
  | _ => Throw SyntaxError
  end.

(** Longest prefix of hexadecimal digits, as [parseInt(text, 16)] reads
    it; [None] when there is no digit at all. *)
Fixpoint hex_prefix (acc : option Z) (text : string) : option Z :=
  match text with
  | EmptyString => acc
  | String c r =>
      match hex_value c with
      | Some d =>
          hex_prefix (Some (match acc with Some n => n * 16 + d | None => d end)) r
      | None => acc
      end
  end.

(** [parseInt(text, 16)] on the slices of a [toString(16)] text: an
    optional sign, then digits; [None] is [NaN]. *)
Definition parseInt16 (text : string) : option Z :=
  match text with
  | String "-" r => option_map Z.opp (hex_prefix None r)
  | String "+" r => hex_prefix None r
  | _ => hex_prefix None text
  end.

(** The [bigint] remainder [a % b]: truncated, the sign of the dividend;
    a zero divisor is a [RangeError]. *)
Definition rem (a b : Z) : completion Z :=
  if b =? 0 then Throw RangeError else Return (Z.rem a b).

(** [new TextEncoder().encode(text)], the text being held as its UTF-8
    bytes. *)
Definition TextEncoder_encode (text : string) : Uint8Array :=
  list_byte_of_string text.

(** [new TextDecoder().decode(bytes)]. *)
Definition TextDecoder_decode (bytes : Uint8Array) : string :=
  string_of_list_byte bytes.

End JS.

(** ** util/math *)

(** [arr[i].toString(16).padStart(2, '0')] *)
Definition byte_hex (b : byte) : string :=
  JS.padStart2 (JS.toString16 (byte_to_Z b)).

(** The loop of [toBigInt] and of [toHex]: the two-digit texts of the bytes,
    appended in order. *)
Fixpoint hex_of_bytes (arr : Uint8Array) : string :=
  match arr with
  | [] => ""
  | b :: r => byte_hex b ++ hex_of_bytes r
  end.

Definition toBigInt (arr : Uint8Array) : completion Z :=
  let hex := hex_of_bytes arr in
  JS.BigInt ("0x" ++ hex).

(** The loop of [toUint8Array]: [hex.slice(i, i + 2)] for i = 0, 2, 4, ...
    are the successive two-character pieces of [hex] (the last one a single
    character when the length is odd), and the piece at [i] is stored at
    index [i / 2] of an array of [ceil(hex.length / 2)] slots. *)
Fixpoint bytes_of_hex (hex : string) : Uint8Array :=
  match hex with
  | EmptyString => []
  | String c1 EmptyString => [ToUint8 (JS.parseInt16 (String c1 ""))]
  | String c1 (String c2 r) =>
      ToUint8 (JS.parseInt16 (String c1 (String c2 ""))) :: bytes_of_hex r
  end.

(** [toUint8Array] on a [bigint]. *)
Definition toUint8Array (n : Z) : Uint8Array :=
  let hex := JS.toString16 n in
  bytes_of_hex hex.

(** [toUint8Array] on a string: the text is read as a hexadecimal literal
    first. *)
Definition toUint8Array_str (text : string) : completion Uint8Array :=
  let* n := JS.BigInt (if JS.startsWith0x text then text else "0x" ++ text) in
  Return (toUint8Array n).

(** [toHex] on a [Uint8Array], and on a [bigint]. *)
Definition toHex (arr : Uint8Array) : string := hex_of_bytes arr.

Definition toHex_bigint (n : Z) : string := toHex (toUint8Array n).

(** [toString] on a [Uint8Array]. *)
Definition toString (data : Uint8Array) : string := JS.TextDecoder_decode data.

(** One test and one round of the [while] loop of [powMod] per unit of
    [fuel]; [Diverge] when the fuel is used up before [exp] reaches 0. *)
Fixpoint powMod_loop (fuel : nat) (result base exp p : Z) : completion Z :=
  match fuel with
  | O => Diverge
  | S fuel' =>
      if exp =? 0 then Return result
      else
        let* result' :=
          (if Z.rem exp 2 =? 1 then JS.rem (result * base) p
           else Return result) in
        let* base' := JS.rem (base * base) p in
        powMod_loop fuel' result' base' (Z.shiftr exp 1) p
  end.

(** The number of loop tests a non-negative [exp] needs: one per binary
    digit, and the last one that finds 0. *)
Definition powMod_fuel (exp : Z) : nat := S (S (Z.to_nat (Z.log2 exp))).

Definition powMod (base exp p : Z) : completion Z :=
  powMod_loop (powMod_fuel exp) 1 base exp p.

(** [a[i] !== b[i]] on bytes. *)
Definition byte_eqb (x y : byte) : bool := Byte.eqb x y.

Fixpoint doesMatch_loop (a b : Uint8Array) : bool :=
  match a, b with
  | x :: a', y :: b' => if negb (byte_eqb x y) then false else doesMatch_loop a' b'
  | _, _ => true
  end.

Definition doesMatch (a b : Uint8Array) : bool :=
  if negb (Nat.eqb (List.length a) (List.length b)) then false
  else doesMatch_loop a b.

(** ** util/hash *)

Inductive Algorithm : Type :=
| SHA_256 | SHA_384 | SHA_512 | SHA3_256 | SHA3_384 | SHA3_512.

(** [Hashable = Uint8Array | string] *)
Inductive Hashable : Type :=
| HBytes (bytes : Uint8Array)
| HText (text : string).

(** A hash-wasm hasher, used only through [update] followed by
    [digest('binary')]: the function from the buffer to the digest. *)
Definition IHasher : Type := Uint8Array -> Uint8Array.

(** The constructors [hash] imports from hash-wasm. *)
Record HashWasm : Type := {
  createSHA256 : IHasher;
  createSHA384 : IHasher;
  createSHA512 : IHasher;
  createSHA3 : Z -> IHasher
}.

Definition hashBuffer (hasher : IHasher) (buffer : Uint8Array) : Uint8Array :=
  hasher buffer.

(** [hash]: the strings are encoded, the arrays are put one after the other
    into one buffer, and the buffer is hashed once.  The [default] branch of
    the [switch] is for values outside of the [Algorithm] enumeration, which
    the type leaves out. *)
Definition hash (wasm : HashWasm) (algorithm : Algorithm)
    (input : list Hashable) : Uint8Array :=
  let data :=
    map (fun h => match h with
                  | HText text => JS.TextEncoder_encode text
                  | HBytes bytes => bytes
                  end) input in
  let arr := List.concat data in
  match algorithm with
  | SHA_256 => hashBuffer (createSHA256 wasm) arr
  | SHA_384 => hashBuffer (createSHA384 wasm) arr
  | SHA_512 => hashBuffer (createSHA512 wasm) arr
  | SHA3_256 => hashBuffer (createSHA3 wasm 256) arr
  | SHA3_384 => hashBuffer (createSHA3 wasm 384) arr
  | SHA3_512 => hashBuffer (createSHA3 wasm 512) arr
  end.

(** ** util/groups: a group is its prime [N] and its generator [g] *)

Record Group : Type := { group_N : Z; group_g : Z }.

(** A parameter that is [string | Uint8Array]. *)
Inductive StringOrBytes : Type :=
| Text (text : string)
| Bytes (bytes : Uint8Array).

(** [if (typeof x === 'string') x = toUint8Array(x)] *)
Definition decode (x : StringOrBytes) : completion Uint8Array :=
  match x with
  | Text text => toUint8Array_str text
  | Bytes bytes => Return bytes
  end.

(** JavaScript truth of an optional [bigint]: [undefined] and [0n] are
    false.  [truthy o] is the value when [!o] is false. *)
Definition truthy (o : option Z) : option Z :=
  match o with
  | Some z => if z =? 0 then None else Some z
  | None => None
  end.

(** [o === 0n] *)
Definition is_0n (o : option Z) : bool :=
  match o with
  | Some z => z =? 0
  | None => false
  end.

Definition LF : string := String (ascii_of_nat 10) "".

(** ** client/authenticate *)

Module ClientAuthenticate.

Record ClientAuthenticateConfig : Type := {
  username : string;
  password : string;
  group : Group;
  algorithm : Algorithm
}.

(** The fields of the class; the optional ones are [undefined] until a
    method assigns them. *)
Record t : Type := mk {
  ca_I : Uint8Array;
  ca_p : Uint8Array;
  ca_group : Group;
  ca_algorithm : Algorithm;
  ca_a : option Z;
  ca_A : option Z;
  ca_B : option Z;
  ca_u : option Z;
  ca_s : option Z;
  ca_S : option Z;
  ca_K : option Uint8Array;
  ca_M1 : option Uint8Array
}.

Definition set_a (v : Z) (this : t) : t :=
  mk (ca_I this) (ca_p this) (ca_group this) (ca_algorithm this)
     (Some v) (ca_A this) (ca_B this) (ca_u this) (ca_s this)
     (ca_S this) (ca_K this) (ca_M1 this).
Definition set_A (v : Z) (this : t) : t :=
  mk (ca_I this) (ca_p this) (ca_group this) (ca_algorithm this)
     (ca_a this) (Some v) (ca_B this) (ca_u this) (ca_s this)
     (ca_S this) (ca_K this) (ca_M1 this).
Definition set_B (v : Z) (this : t) : t :=
  mk (ca_I this) (ca_p this) (ca_group this) (ca_algorithm this)
     (ca_a this) (ca_A this) (Some v) (ca_u this) (ca_s this)
     (ca_S this) (ca_K this) (ca_M1 this).
Definition set_u (v : Z) (this : t) : t :=
  mk (ca_I this) (ca_p this) (ca_group this) (ca_algorithm this)
     (ca_a this) (ca_A this) (ca_B this) (Some v) (ca_s this)
     (ca_S this) (ca_K this) (ca_M1 this).
Definition set_s (v : Z) (this : t) : t :=
  mk (ca_I this) (ca_p this) (ca_group this) (ca_algorithm this)
     (ca_a this) (ca_A this) (ca_B this) (ca_u this) (Some v)
     (ca_S this) (ca_K this) (ca_M1 this).
Definition set_S (v : Z) (this : t) : t :=
  mk (ca_I this) (ca_p this) (ca_group this) (ca_algorithm this)
     (ca_a this) (ca_A this) (ca_B this) (ca_u this) (ca_s this)
     (Some v) (ca_K this) (ca_M1 this).
Definition set_K (v : Uint8Array) (this : t) : t :=
  mk (ca_I this) (ca_p this) (ca_group this) (ca_algorithm this)
     (ca_a this) (ca_A this) (ca_B this) (ca_u this) (ca_s this)
     (ca_S this) (Some v) (ca_M1 this).
Definition set_M1 (v : Uint8Array) (this : t) : t :=
  mk (ca_I this) (ca_p this) (ca_group this) (ca_algorithm this)
     (ca_a this) (ca_A this) (ca_B this) (ca_u this) (ca_s this)
     (ca_S this) (ca_K this) (Some v).

(** The texts of the errors that are built from two lines. *)
Definition B_is_zero_message : string :=
  "Invalid server-supplied public key: B = 0"
  ++ LF ++ "This is probably a misconfiguration, but possibly a MitM attack!".

Definition u_is_zero_message : string :=
  "Invalid keys: u = 0"
  ++ LF ++ "This is probably a misconfiguration, but possibly a MitM attack!".

Definition M2_mismatch_message : string :=
  "Server-supplied M2 does not match the expected value"
  ++ LF ++ "This is probably a misconfiguration, but possibly a MitM attack!".

(** A method body: from the fields before the call to its completion and
    the fields after it.  Assignments made before a [throw] stay. *)
Definition M (T : Type) : Type := t -> completion T * t.

Definition ret {T : Type} (v : T) : M T := fun this => (Return v, this).

Definition throw {T : Type} (e : exn) : M T := fun this => (Throw e, this).

Definition bind {T U : Type} (m : M T) (k : T -> M U) : M U :=
  fun this =>
    match m this with
    | (Return v, this') => k v this'
    | (Throw e, this') => (Throw e, this')
    | (Diverge, this') => (Diverge, this')
    end.

(** A call of a function that does not touch the fields. *)
Definition call {T : Type} (c : completion T) : M T := fun this => (c, this).

(** [this], to read its fields. *)
Definition self : M t := fun this => (Return this, this).

(** [this.f = v] *)
Definition assign (upd : t -> t) : M unit :=
  fun this => (Return tt, upd this).

Declare Scope method_scope.
Delimit Scope method_scope with method.
Notation "x <- m ;; k" := (bind m (fun x => k))
  (at level 61, m at next level, right associativity) : method_scope.
Notation "m ;; k" := (bind m (fun _ => k))
  (at level 61, right associativity) : method_scope.
Local Open Scope method_scope.

Record ClientAuthenticateInit : Type := {
  init_I : string;
  init_raw_A : Uint8Array;
  init_encoded_A : string
}.

Record ClientAuthenticateResult : Type := {
  raw_M1 : Uint8Array;
  encoded_M1 : string
}.

(** [HX[i] = HN[i] ^ Hg[i]] on bytes; a missing [Hg[i]] is [undefined],
    which [^] reads as 0. *)
Definition byte_xor (x y : byte) : byte :=
  ToUint8 (Some (Z.lxor (byte_to_Z x) (byte_to_Z y))).

Fixpoint xor_loop (HN Hg : Uint8Array) : Uint8Array :=
  match HN with
  | [] => []
  | x :: HN' =>
      match Hg with
      | y :: Hg' => byte_xor x y :: xor_loop HN' Hg'
      | [] => byte_xor x x00 :: xor_loop HN' []
      end
  end.

(** [new ClientAuthenticate(config)] *)
Definition new (config : ClientAuthenticateConfig) : t :=
  mk (JS.TextEncoder_encode (username config))
     (JS.TextEncoder_encode (password config))
     (group config) (algorithm config)
     None None None None None None None None.

Section Methods.

Variable wasm : HashWasm.

(** [computeA]; [random256] is the array [random(256)] returned. *)
Definition computeA (random256 : Uint8Array) : M Z :=
  let a := random256 in
  a' <- call (toBigInt a) ;;
  assign (set_a a') ;;
  this <- self ;;
  A <- call (powMod (group_g (ca_group this)) a' (group_N (ca_group this))) ;;
  ret A.

(** [init]: stores [a] and [A]. *)
Definition init (random256 : Uint8Array) : M ClientAuthenticateInit :=
  A <- computeA random256 ;;
  assign (set_A A) ;;
  this <- self ;;
  ret {| init_I := toString (ca_I this);
         init_raw_A := toUint8Array A;
         init_encoded_A := toHex (toUint8Array A) |}.

(** [computeU]: u = H(A, B). *)
Definition computeU : M Z :=
  this <- self ;;
  match truthy (ca_A this), truthy (ca_B this) with
  | Some A, Some B =>
      let u := hash wasm (ca_algorithm this)
                 [HBytes (toUint8Array A); HBytes (toUint8Array B)] in
      call (toBigInt u)
  | _, _ => throw (SRPError "A and B must be set before computing u")
  end.

(** [computeK]: k = H(N, g). *)
Definition computeK : M Z :=
  this <- self ;;
  let k := hash wasm (ca_algorithm this)
             [HBytes (toUint8Array (group_N (ca_group this)));
              HBytes (toUint8Array (group_g (ca_group this)))] in
  call (toBigInt k).

(** [computeX]: x = H(s, H(I, ":", p)), [s] being the stored integer. *)
Definition computeX : M Z :=
  this <- self ;;
  match truthy (ca_s this) with
  | Some s =>
      let identity := hash wasm (ca_algorithm this)
                        [HBytes (ca_I this); HText ":"; HBytes (ca_p this)] in
      let x := hash wasm (ca_algorithm this)
                 [HBytes (toUint8Array s); HBytes identity] in
      call (toBigInt x)
  | None => throw (SRPError "s must be set before computing x")
  end.

(** [computeS]: S = (B - k * g^x) ^ (a + u * x) % N, with [powMod] for both
    powers. *)
Definition computeS : M Z :=
  this <- self ;;
  match truthy (ca_a this), truthy (ca_B this), truthy (ca_u this) with
  | Some a, Some B, Some u =>
      k <- computeK ;;
      x <- computeX ;;
      let N := group_N (ca_group this) in
      let g := group_g (ca_group this) in
      gx <- call (powMod g x N) ;;
      call (powMod (B - k * gx) (a + u * x) N)
  | _, _, _ => throw (SRPError "a, B, and u must be set before computing S")
  end.

(** [exchange]: the assignments to [B] and [s] come before the test on
    [B]. *)
Definition exchange (B s : StringOrBytes) : M unit :=
  this <- self ;;
  match truthy (ca_A this) with
  | None => throw (SRPError "A must be set before exchanging B")
  | Some _ =>
      B <- call (decode B) ;;
      B' <- call (toBigInt B) ;;
      assign (set_B B') ;;
      s <- call (decode s) ;;
      s' <- call (toBigInt s) ;;
      assign (set_s s') ;;
      this <- self ;;
      if is_0n (ca_B this)
      then throw (SRPError B_is_zero_message)
      else
        u <- computeU ;;
        assign (set_u u) ;;
        this <- self ;;
        if is_0n (ca_u this)
        then throw (SRPError u_is_zero_message)
        else
          S <- computeS ;;
          assign (set_S S) ;;
          this <- self ;;
          let K := hash wasm (ca_algorithm this) [HBytes (toUint8Array S)] in
          assign (set_K K)
  end.

(** [authenticate]: M1 = H(H(N) xor H(g), I, s, A, B, K). *)
Definition authenticate : M ClientAuthenticateResult :=
  this <- self ;;
  match truthy (ca_s this), truthy (ca_A this), truthy (ca_B this), ca_K this with
  | Some s, Some A, Some B, Some K =>
      let N := toUint8Array (group_N (ca_group this)) in
      let g := toUint8Array (group_g (ca_group this)) in
      let s := toUint8Array s in
      let A := toUint8Array A in
      let B := toUint8Array B in
      let HN := hash wasm (ca_algorithm this) [HBytes N] in
      let Hg := hash wasm (ca_algorithm this) [HBytes g] in
      let HX := xor_loop HN Hg in
      let M1 := hash wasm (ca_algorithm this)
                  [HBytes HX; HBytes (ca_I this); HBytes s; HBytes A;
                   HBytes B; HBytes K] in
      assign (set_M1 M1) ;;
      ret {| raw_M1 := M1; encoded_M1 := toHex M1 |}
  | _, _, _, _ => throw (SRPError "s, A, B, and K must be set before authenticating")
  end.

(** [verifyServer], with the test as the source has it:
    [if (doesMatch(expected, M2)) throw ...].  (The second copy of the class
    in the same file, the one without comments, has the same test and
    throws a plain [SRPError].) *)
Definition verifyServer (M2 : StringOrBytes) : M unit :=
  this <- self ;;
  match truthy (ca_A this), ca_M1 this, ca_K this with
  | Some A, Some M1, Some K =>
      let A := toUint8Array A in
      let expected := hash wasm (ca_algorithm this)
                        [HBytes A; HBytes M1; HBytes K] in
      M2 <- call (decode M2) ;;
      if doesMatch expected M2
      then throw (SRPSecurityViolation M2_mismatch_message)
      else ret tt
  | _, _, _ => throw (SRPError "A, M1, and K must be set before verifying the server")
  end.

End Methods.

(** The instances on which [init] was never called: a new instance, and
    what any call of the other three public methods leaves of one. *)
Inductive without_init (wasm : HashWasm) : t -> Prop :=
| wi_new (config : ClientAuthenticateConfig) :
    without_init wasm (new config)
| wi_exchange (this : t) (B s : StringOrBytes) :
    without_init wasm this ->
    without_init wasm (snd (exchange wasm B s this))
| wi_authenticate (this : t) :
    without_init wasm this ->
    without_init wasm (snd (authenticate wasm this))
| wi_verifyServer (this : t) (M2 : StringOrBytes) :
    without_init wasm this ->
    without_init wasm (snd (verifyServer wasm M2 this)).

End ClientAuthenticate.

(** ** server/setup *)

Module ServerSetup.

Record ServerSetupConfig : Type := {
  I : string;
  s : StringOrBytes;
  v : StringOrBytes
}.

Record ServerSetupResult : Type := {
  username : string;
  salt : string;
  verifier : string
}.

(** The private fields [I], [s] and [v]. *)
Record t : Type := mk {
  ss_I : string;
  ss_s : Uint8Array;
  ss_v : Z
}.

(** [new ServerSetup(config)]; the conversions of [s] and [v] can throw. *)
Definition new (config : ServerSetupConfig) : completion t :=
  let* s' := decode (s config) in
  let* v' := match v config with
             | Text text => JS.BigInt ("0x" ++ text)
             | Bytes bytes => toBigInt bytes
             end in
  Return (mk (I config) s' v').

(** [getCredentials] has no test and no [throw]: it returns the record. *)
Definition getCredentials (this : t) : completion ServerSetupResult :=
  Return {| username := ss_I this;
            salt := toHex (ss_s this);
            verifier := toHex_bigint (ss_v this) |}.

Definition verify (this : t) : completion ServerSetupResult :=
  if Nat.eqb (String.length (ss_I this)) 0
  then Throw (SRPError "I must not be empty")
  else
    let* s_rejected :=
      (if Nat.eqb (List.length (ss_s this)) 0 then Return true
       else let* n := toBigInt (ss_s this) in Return (n =? 0)) in
    if s_rejected
    then Throw (SRPSecurityViolation "s must not be empty or equal zero")
    else
      if ss_v this =? 0
      then Throw (SRPSecurityViolation "v must not be zero")
      else getCredentials this.

End ServerSetup.

(** ** client/setup *)

Module ClientSetup.

Record ClientSetupConfig : Type := {
  username : string;
  password : string;
  salt : option Uint8Array;
  saltLength : option Z;
  group : Group;
  algorithm : Algorithm
}.

Record ClientSetupResult : Type := {
  result_I : string;
  raw_v : Uint8Array;
  raw_s : Uint8Array;
  encoded_v : string;
  encoded_s : string
}.

(** The fields of the class; [x] and [v] are [undefined] until [init]. *)
Record t : Type := mk {
  cs_I : Uint8Array;
  cs_p : Uint8Array;
  cs_s : Uint8Array;
  cs_group : Group;
  cs_algorithm : Algorithm;
  cs_x : option Z;
  cs_v : option Z
}.

(** [new ClientSetup(config)].  [random] stands for the function of
    util/random, asked for [saltLength ?? 192] bits when no salt is given;
    an array given as salt is an object, so it is kept whatever its
    length. *)
Definition new (random : Z -> Uint8Array) (config : ClientSetupConfig) : t :=
  mk (JS.TextEncoder_encode (username config))
     (JS.TextEncoder_encode (password config))
     (match salt config with
      | Some given => given
      | None => random (match saltLength config with
                        | Some bits => bits
                        | None => 192
                        end)
      end)
     (group config) (algorithm config) None None.

Definition set_x (x : Z) (this : t) : t :=
  mk (cs_I this) (cs_p this) (cs_s this) (cs_group this) (cs_algorithm this)
     (Some x) (cs_v this).

Definition set_v (v : Z) (this : t) : t :=
  mk (cs_I this) (cs_p this) (cs_s this) (cs_group this) (cs_algorithm this)
     (cs_x this) (Some v).

(** [computeX]: x = H(s, H(I, ":", p)), the salt being hashed as it is. *)
Definition computeX (wasm : HashWasm) (this : t) : completion Z :=
  let identity := hash wasm (cs_algorithm this)
                    [HBytes (cs_I this); HText ":"; HBytes (cs_p this)] in
  let x := hash wasm (cs_algorithm this) [HBytes (cs_s this); HBytes identity] in
  toBigInt x.

(** [computeV]: v = g ^ x % N, after the test [!this.x]. *)
Definition computeV (this : t) : completion Z :=
  match truthy (cs_x this) with
  | None => Throw (SRPError "X has not been computed yet")
  | Some x => powMod (group_g (cs_group this)) x (group_N (cs_group this))
  end.

(** [init]: the completion and the fields after the call. *)
Definition init (wasm : HashWasm) (this : t) : completion ClientSetupResult * t :=
  match computeX wasm this with
  | Return x =>
      let this1 := set_x x this in
      match computeV this1 with
      | Return v =>
          let this2 := set_v v this1 in
          let uintV := toUint8Array v in
          (Return {| result_I := toString (cs_I this2);
                     raw_v := toUint8Array v;
                     raw_s := cs_s this2;
                     encoded_v := toHex uintV;
                     encoded_s := toHex (cs_s this2) |},
           this2)
      | Throw e => (Throw e, this1)
      | Diverge => (Diverge, this1)
      end
  | Throw e => (Throw e, this)
  | Diverge => (Diverge, this)
  end.

End ClientSetup.

(** ** The life of a ClientAuthenticate instance *)

(** The instances a program can get: a new one, and what a call of any of
    the four public methods, with any arguments, leaves of one. *)
Inductive client_reachable (wasm : HashWasm) : ClientAuthenticate.t -> Prop :=
| cr_new (config : ClientAuthenticate.ClientAuthenticateConfig) :
    client_reachable wasm (ClientAuthenticate.new config)
| cr_init (this : ClientAuthenticate.t) (random256 : Uint8Array) :
    client_reachable wasm this ->
    client_reachable wasm (snd (ClientAuthenticate.init random256 this))
| cr_exchange (this : ClientAuthenticate.t) (B s : StringOrBytes) :
    client_reachable wasm this ->
    client_reachable wasm (snd (ClientAuthenticate.exchange wasm B s this))
| cr_authenticate (this : ClientAuthenticate.t) :
    client_reachable wasm this ->
    client_reachable wasm (snd (ClientAuthenticate.authenticate wasm this))
| cr_verifyServer (this : ClientAuthenticate.t) (M2 : StringOrBytes) :
    client_reachable wasm this ->
    client_reachable wasm (snd (ClientAuthenticate.verifyServer wasm M2 this)).

(** A field that has been assigned. *)
Definition is_set {T : Type} (o : option T) : Prop := o <> None.

(** The fields are filled in the order of the protocol: [A] with [a];
    [B] and [s] together, after [A]; [u] after [B]; [S] after [u];
    [K] after [S]; [M1] after [K]. *)
Definition fields_in_order (this : ClientAuthenticate.t) : Prop :=
  (is_set (ClientAuthenticate.ca_A this) -> is_set (ClientAuthenticate.ca_a this)) /\
  (is_set (ClientAuthenticate.ca_s this) -> is_set (ClientAuthenticate.ca_B this)) /\
  (is_set (ClientAuthenticate.ca_B this) -> is_set (ClientAuthenticate.ca_A this)) /\
  (is_set (ClientAuthenticate.ca_u this) -> is_set (ClientAuthenticate.ca_s this)) /\
  (is_set (ClientAuthenticate.ca_S this) -> is_set (ClientAuthenticate.ca_u this)) /\
  (is_set (ClientAuthenticate.ca_K this) -> is_set (ClientAuthenticate.ca_S this)) /\
  (is_set (ClientAuthenticate.ca_M1 this) -> is_set (ClientAuthenticate.ca_K this)).

(** ** Reference notions the properties are stated with *)

(** The unsigned integer a byte sequence writes in base 256, most
    significant byte first. *)
Definition big_endian (arr : Uint8Array) : Z :=
  fold_left (fun acc b => acc * 256 + byte_to_Z b) arr 0.

(** A text made of the digits 0-9 and a-f only. *)
Definition lower_hex_char (c : ascii) : bool :=
  match c with
  | "0" | "1" | "2" | "3" | "4" | "5" | "6" | "7" | "8" | "9"
  | "a" | "b" | "c" | "d" | "e" | "f" => true
  | _ => false
  end%char.

Fixpoint lower_hex (text : string) : bool :=
  match text with
  | EmptyString => true
  | String c r => lower_hex_char c && lower_hex r
  end.

(** The value of a text of hexadecimal digits, read after [acc]. *)
Fixpoint digits_value (acc : Z) (digits : string) : Z :=
  match digits with
  | EmptyString => acc
  | String c r =>
      digits_value
        (acc * 16 + match JS.hex_value c with Some d => d | None => 0 end) r
  end.

(** A digit text with a ["0"] put in front of the last digit when the
    number of digits is odd. *)
Fixpoint pad_last (hex : string) : string :=
  match hex with
  | EmptyString => ""
  | String c EmptyString => String "0" hex
  | String c1 (String c2 r) => String c1 (String c2 (pad_last r))
  end.

(** ** A small instance on which the methods run *)

Module Sample.

Import ClientAuthenticate.

(** A one-byte stand-in for a digest function. *)
Definition checksum : IHasher :=
  fun buffer =>
    [ToUint8 (Some (fold_left (fun acc b => acc * 31 + byte_to_Z b) buffer 7))].

Definition wasm : HashWasm :=
  {| createSHA256 := checksum;
     createSHA384 := checksum;
     createSHA512 := checksum;
     createSHA3 := fun _ => checksum |}.

Definition b23 : Group := {| group_N := 23; group_g := 5 |}.

Definition config : ClientAuthenticateConfig :=
  {| username := "alice";
     password := "password123";
     group := b23;
     algorithm := SHA_256 |}.

(** A client as constructed, and the same after [init]. *)
Definition created : t := new config.

Definition initialized : t := snd (init [x06] created).

(** ... and after [exchange] with B = 2 and the salt 2a. *)
Definition exchanged : t :=
  snd (exchange wasm (Bytes [x02]) (Bytes [x2a]) initialized).

(** ... and after [authenticate]. *)
Definition authenticated : t := snd (authenticate wasm exchanged).

(** H(A, M1, K) for the fields of [authenticated]. *)
Definition expected_M2 : Uint8Array :=
  hash wasm SHA_256 [HBytes (toUint8Array 8); HBytes [x09]; HBytes [xd4]].

(** A digest function whose digest is always the byte 0. *)
Definition wasm_zero : HashWasm :=
  {| createSHA256 := fun _ => [x00];
     createSHA384 := fun _ => [x00];
     createSHA512 := fun _ => [x00];
     createSHA3 := fun _ _ => [x00] |}.

(** A ClientSetup instance with a salt of three bytes. *)
Definition setup : ClientSetup.t :=
  ClientSetup.new (fun _ => [])
    {| ClientSetup.username := "alice";
       ClientSetup.password := "password123";
       ClientSetup.salt := Some [x2a; x00; x07];
       ClientSetup.saltLength := None;
       ClientSetup.group := b23;
       ClientSetup.algorithm := SHA_256 |}.

End Sample.

(** * Properties *)

(** ** The codec of util/math *)

Lemma byte_hex_chars (b : byte) :
  exists c1 c2,
    byte_hex b = String c1 (String c2 "") /\
    JS.hex_value c1 = Some (byte_to_Z b / 16) /\
    JS.hex_value c2 = Some (byte_to_Z b mod 16) /\
    lower_hex_char c1 = true /\ lower_hex_char c2 = true.
Proof.
  destruct b; do 2 eexists; (split; [reflexivity |]);
    repeat split; reflexivity.
Qed.

Lemma byte_to_Z_range (b : byte) : 0 <= byte_to_Z b < 256.
Proof. destruct b; vm_compute; split; congruence. Qed.

Lemma hex_literal_tail_bytes (arr : Uint8Array) :
  forall acc,
    JS.hex_literal_tail acc (hex_of_bytes arr)
    = Some (fold_left (fun acc b => acc * 256 + byte_to_Z b) arr acc).
Proof.
  induction arr as [| b arr IH]; intros acc; [reflexivity |].
  destruct (byte_hex_chars b) as (c1 & c2 & E & H1 & H2 & _).
  cbn [hex_of_bytes fold_left]. rewrite E. cbn [append JS.hex_literal_tail].
  rewrite H1, H2, IH. do 2 f_equal.
  pose proof (Z.div_mod (byte_to_Z b) 16). lia.
Qed.

Lemma toBigInt_cons (b : byte) (arr : Uint8Array) :
  toBigInt (b :: arr) = Return (big_endian (b :: arr)).
Proof.
  unfold toBigInt, big_endian.
  destruct (byte_hex_chars b) as (c1 & c2 & E & H1 & H2 & _).
  cbn [hex_of_bytes fold_left]. rewrite E. cbn [append JS.BigInt].
  rewrite H1. cbn [JS.hex_literal_tail]. rewrite H2.
  rewrite hex_literal_tail_bytes. do 2 f_equal.
  pose proof (Z.div_mod (byte_to_Z b) 16). lia.
Qed.

Lemma fold_big_endian_nonneg (arr : Uint8Array) :
  forall acc, 0 <= acc ->
    0 <= fold_left (fun acc b => acc * 256 + byte_to_Z b) arr acc.
Proof.
  induction arr as [| b arr IH]; intros acc Hacc; [exact Hacc |].
  cbn [fold_left]. apply IH. pose proof (byte_to_Z_range b). lia.
Qed.

Lemma big_endian_nonneg (arr : Uint8Array) : 0 <= big_endian arr.
Proof. apply fold_big_endian_nonneg. lia. Qed.

Lemma toBigInt_nonneg (arr : Uint8Array) (n : Z) :
  toBigInt arr = Return n -> 0 <= n.
Proof.
  destruct arr as [| b arr]; [discriminate |].
  rewrite toBigInt_cons. intros [= <-]. apply big_endian_nonneg.
Qed.

(** C4 (as the code has it).  [toBigInt] reads every non-empty byte sequence
    as the unsigned integer it writes most significant byte first; on the
    empty sequence [BigInt('0x')] raises a [SyntaxError], no value comes
    back. *)
Theorem toBigInt_big_endian :
  (forall arr : Uint8Array, arr <> [] -> toBigInt arr = Return (big_endian arr))
  /\ toBigInt [] = Throw SyntaxError.
Proof.
  split; [| reflexivity].
  intros [| b arr] H; [congruence | apply toBigInt_cons].
Qed.

Lemma toBigInt_big_endian_witness :
  toBigInt [x01; x23] = Return 291.
Proof.
  exact (proj1 toBigInt_big_endian [x01; x23] ltac:(discriminate)).
Defined.

(** C4 fails on the empty byte sequence: the call throws, it does not
    return zero. *)
Lemma toBigInt_empty_not_zero :
  toBigInt [] = Throw SyntaxError /\ toBigInt [] <> Return 0.
Proof. split; [reflexivity | discriminate]. Qed.

(** C3 at the integer 0x123 and at the bytes 01 23.  [toString(16)] gives
    the three digits ["123"], which [toUint8Array] cuts from the left into
    ["12"] and ["3"]: the array is 12 03, which reads back as 0x1203. *)
Theorem codec_round_trip_odd_digits :
  toUint8Array 291 = [x12; x03] /\
  toBigInt (toUint8Array 291) = Return 4611 /\
  toBigInt [x01; x23] = Return 291 /\
  (let* n := toBigInt [x01; x23] in Return (toUint8Array n)) = Return [x12; x03].
Proof. repeat split. Qed.

(** *** Where the round trip holds, and what the codec gives elsewhere *)

Lemma lower_hex_app (s1 s2 : string) :
  lower_hex (s1 ++ s2) = lower_hex s1 && lower_hex s2.
Proof.
  induction s1 as [| c s1 IH]; [reflexivity |].
  cbn [append lower_hex]. rewrite IH. apply andb_assoc.
Qed.

(** [toHex] writes lower-case digits only, two for each byte. *)
Lemma toHex_lower_hex (arr : Uint8Array) : lower_hex (toHex arr) = true.
Proof.
  unfold toHex. induction arr as [| b arr IH]; [reflexivity |].
  cbn [hex_of_bytes]. rewrite lower_hex_app, IH.
  destruct (byte_hex_chars b) as (c1 & c2 & -> & _ & _ & H1 & H2).
  cbn [lower_hex]. rewrite H1, H2. reflexivity.
Qed.

Lemma toHex_length (arr : Uint8Array) :
  String.length (toHex arr) = (2 * List.length arr)%nat.
Proof.
  unfold toHex. induction arr as [| b arr IH]; [reflexivity |].
  cbn [hex_of_bytes List.length].
  destruct (byte_hex_chars b) as (c1 & c2 & -> & _).
  cbn [append String.length]. rewrite IH. lia.
Qed.

Lemma lower_hex_char_cases (c : ascii) :
  lower_hex_char c = true ->
  exists d, 0 <= d < 16 /\ c = JS.hex_char d /\ JS.hex_value c = Some d.
Proof.
  destruct c as [[] [] [] [] [] [] [] []]; cbn; intros H; try discriminate;
    match goal with
    | |- exists d, _ /\ ?c = _ /\ _ =>
        let v := eval vm_compute in (JS.hex_value c) in
        match v with Some ?d => exists d end
    end; (split; [lia | split; reflexivity]).
Qed.

Lemma hex_char_lower (d : Z) :
  0 <= d < 16 ->
  lower_hex_char (JS.hex_char d) = true /\ JS.hex_value (JS.hex_char d) = Some d.
Proof.
  intros H.
  assert (E : d = 0 \/ d = 1 \/ d = 2 \/ d = 3 \/ d = 4 \/ d = 5 \/ d = 6 \/ d = 7
              \/ d = 8 \/ d = 9 \/ d = 10 \/ d = 11 \/ d = 12 \/ d = 13
              \/ d = 14 \/ d = 15) by lia.
  repeat (destruct E as [-> | E]; [split; reflexivity |]).
  subst d. split; reflexivity.
Qed.

Lemma hex_literal_tail_lower (digits : string) :
  forall acc, lower_hex digits = true ->
    JS.hex_literal_tail acc digits = Some (digits_value acc digits).
Proof.
  induction digits as [| c r IH]; intros acc H; [reflexivity |].
  cbn [lower_hex] in H. apply andb_prop in H. destruct H as [Hc Hr].
  destruct (lower_hex_char_cases c Hc) as (d & _ & _ & Hd).
  cbn [JS.hex_literal_tail digits_value]. rewrite Hd. apply IH. exact Hr.
Qed.

Lemma digits_value_app (s1 s2 : string) :
  forall acc, digits_value acc (s1 ++ s2) = digits_value (digits_value acc s1) s2.
Proof.
  induction s1 as [| c s1 IH]; intros acc; [reflexivity |].
  cbn [append digits_value]. apply IH.
Qed.

Lemma append_assoc (s1 s2 s3 : string) : (s1 ++ s2) ++ s3 = s1 ++ (s2 ++ s3).
Proof.
  induction s1 as [| c s1 IH]; [reflexivity |].
  cbn [append]. rewrite IH. reflexivity.
Qed.

Lemma hex_digits_acc (rounds : nat) :
  forall n acc, JS.hex_digits rounds n acc = JS.hex_digits rounds n "" ++ acc.
Proof.
  induction rounds as [| r IH]; intros n acc; [reflexivity |].
  cbn [JS.hex_digits]. destruct (n <? 16); [reflexivity |].
  rewrite (IH (n / 16) (String _ acc)), (IH (n / 16) (String _ "")).
  rewrite append_assoc. reflexivity.
Qed.

Lemma pow16_succ (r : nat) : 16 ^ Z.of_nat (S r) = 16 * 16 ^ Z.of_nat r.
Proof. rewrite Nat2Z.inj_succ. apply Z.pow_succ_r. lia. Qed.

(** The digits [toString(16)] writes are lower-case digits whose value is
    the number. *)
Lemma hex_digits_value (rounds : nat) :
  forall n, 0 <= n < 16 ^ Z.of_nat (S rounds) ->
    digits_value 0 (JS.hex_digits (S rounds) n "") = n /\
    lower_hex (JS.hex_digits (S rounds) n "") = true.
Proof.
  induction rounds as [| r IH]; intros n Hn.
  - change (16 ^ Z.of_nat 1) with 16 in Hn.
    cbn [JS.hex_digits]. destruct (Z.ltb_spec n 16) as [_ | H]; [| lia].
    destruct (hex_char_lower n Hn) as [H1 H2].
    cbn [digits_value lower_hex]. rewrite H1, H2. split; [lia | reflexivity].
  - rewrite pow16_succ in Hn.
    remember (S r) as r' eqn:Er. cbn [JS.hex_digits].
    destruct (Z.ltb_spec n 16) as [Hlt | Hge].
    + destruct (hex_char_lower n ltac:(lia)) as [H1 H2].
      cbn [digits_value lower_hex]. rewrite H1, H2. split; [lia | reflexivity].
    + rewrite hex_digits_acc. subst r'.
      assert (Hq : 0 <= n / 16 < 16 ^ Z.of_nat (S r)).
      { split; [apply Z.div_pos; lia |]. apply Z.div_lt_upper_bound; lia. }
      destruct (IH (n / 16) Hq) as [Hv Hl].
      destruct (hex_char_lower (n mod 16) ltac:(apply Z.mod_pos_bound; lia))
        as [H1 H2].
      rewrite digits_value_app, Hv, lower_hex_app, Hl.
      cbn [digits_value lower_hex]. rewrite H1, H2.
      split; [| reflexivity]. pose proof (Z.div_mod n 16). lia.
Qed.

Lemma toString16_rounds (n : Z) :
  0 <= n -> n < 16 ^ Z.of_nat (S (Z.to_nat (Z.log2 n))).
Proof.
  intros Hn. destruct (Z.eq_dec n 0) as [-> | Hne]; [reflexivity |].
  pose proof (Z.log2_spec n ltac:(lia)) as [_ Hlt].
  pose proof (Z.log2_nonneg n) as Hlog.
  rewrite Nat2Z.inj_succ, Z2Nat.id by exact Hlog.
  apply (Z.lt_le_trans _ _ _ Hlt).
  apply Z.pow_le_mono_l. lia.
Qed.

Lemma toString16_value (n : Z) :
  0 <= n ->
  digits_value 0 (JS.toString16 n) = n /\ lower_hex (JS.toString16 n) = true.
Proof.
  intros Hn. unfold JS.toString16.
  destruct (Z.ltb_spec n 0) as [H | _]; [lia |].
  apply hex_digits_value. split; [exact Hn | apply toString16_rounds; exact Hn].
Qed.

(** [BigInt] reads a text of lower-case digits as its value. *)
Lemma BigInt_lower_hex (digits : string) :
  digits <> "" -> lower_hex digits = true ->
  JS.BigInt ("0x" ++ digits) = Return (digits_value 0 digits).
Proof.
  destruct digits as [| c r]; [congruence |]. intros _ H.
  cbn [lower_hex] in H. apply andb_prop in H. destruct H as [Hc Hr].
  destruct (lower_hex_char_cases c Hc) as (d & _ & _ & Hd).
  cbn [append JS.BigInt digits_value]. rewrite Hd.
  rewrite (hex_literal_tail_lower r d Hr). reflexivity.
Qed.

Lemma string_pair_ind (P : string -> Prop) :
  P "" ->
  (forall c, P (String c "")) ->
  (forall c1 c2 r, P r -> P (String c1 (String c2 r))) ->
  forall s, P s.
Proof.
  intros H0 H1 H2 s.
  assert (H : P s /\ forall c, P (String c s)); [| exact (proj1 H)].
  induction s as [| c s [IHs IHc]]; split; auto.
Qed.

Ltac digit_cases H :=
  match type of H with
  | 0 <= ?d < 16 =>
      let E := fresh "E" in
      assert (E : d = 0 \/ d = 1 \/ d = 2 \/ d = 3 \/ d = 4 \/ d = 5 \/ d = 6
                  \/ d = 7 \/ d = 8 \/ d = 9 \/ d = 10 \/ d = 11 \/ d = 12
                  \/ d = 13 \/ d = 14 \/ d = 15) by lia;
      clear H;
      repeat (destruct E as [E | E]); subst d
  end.

(** A pair of digits that [toUint8Array] stores as one byte is the pair
    [toBigInt] and [toHex] write for that byte; a single digit comes back
    with a ["0"] in front. *)
Lemma byte_hex_pair (c1 c2 : ascii) :
  lower_hex_char c1 = true -> lower_hex_char c2 = true ->
  byte_hex (ToUint8 (JS.parseInt16 (String c1 (String c2 ""))))
  = String c1 (String c2 "").
Proof.
  intros H1 H2.
  destruct (lower_hex_char_cases c1 H1) as (d1 & Hd1 & -> & _).
  destruct (lower_hex_char_cases c2 H2) as (d2 & Hd2 & -> & _).
  digit_cases Hd1; digit_cases Hd2; reflexivity.
Qed.

Lemma byte_hex_single (c : ascii) :
  lower_hex_char c = true ->
  byte_hex (ToUint8 (JS.parseInt16 (String c ""))) = String "0" (String c "").
Proof.
  intros H. destruct (lower_hex_char_cases c H) as (d & Hd & -> & _).
  digit_cases Hd; reflexivity.
Qed.

Lemma hex_of_bytes_of_hex (hex : string) :
  lower_hex hex = true -> hex_of_bytes (bytes_of_hex hex) = pad_last hex.
Proof.
  induction hex as [| c | c1 c2 r IH] using string_pair_ind; intros H.
  - reflexivity.
  - cbn [lower_hex] in H. rewrite andb_true_r in H.
    cbn [bytes_of_hex hex_of_bytes pad_last]. rewrite (byte_hex_single c H).
    reflexivity.
  - cbn [lower_hex] in H.
    apply andb_prop in H. destruct H as [H1 H].
    apply andb_prop in H. destruct H as [H2 Hr].
    cbn [bytes_of_hex hex_of_bytes pad_last].
    rewrite (byte_hex_pair c1 c2 H1 H2), (IH Hr). reflexivity.
Qed.

Lemma pad_last_lower_hex (hex : string) :
  lower_hex hex = true -> lower_hex (pad_last hex) = true.
Proof.
  induction hex as [| c | c1 c2 r IH] using string_pair_ind; intros H.
  - reflexivity.
  - exact H.
  - cbn [lower_hex pad_last] in H |- *.
    apply andb_prop in H. destruct H as [H1 H].
    apply andb_prop in H. destruct H as [H2 Hr].
    rewrite H1, H2, (IH Hr). reflexivity.
Qed.

Lemma pad_last_nonempty (hex : string) : hex <> "" -> pad_last hex <> "".
Proof. destruct hex as [| c1 [| c2 r]]; cbn; congruence. Qed.

Lemma pad_last_value (hex : string) :
  lower_hex hex = true ->
  forall acc,
    digits_value acc (pad_last hex)
    = if Nat.even (String.length hex) then digits_value acc hex
      else 16 * digits_value acc hex - 15 * (digits_value acc hex mod 16).
Proof.
  induction hex as [| c | c1 c2 r IH] using string_pair_ind; intros H acc.
  - reflexivity.
  - cbn [lower_hex] in H. rewrite andb_true_r in H.
    destruct (lower_hex_char_cases c H) as (d & Hd & _ & Hv).
    cbn [pad_last digits_value String.length Nat.even]. rewrite Hv.
    change (JS.hex_value "0") with (Some 0).
    replace ((acc * 16 + d) mod 16) with d; [lia |].
    apply (Z.mod_unique_pos _ _ acc); lia.
  - cbn [lower_hex] in H.
    apply andb_prop in H. destruct H as [_ H].
    apply andb_prop in H. destruct H as [_ Hr].
    cbn [pad_last digits_value String.length Nat.even]. apply (IH Hr).
Qed.

Lemma toString16_nonempty (n : Z) : JS.toString16 n <> "".
Proof.
  unfold JS.toString16. destruct (n <? 0); [discriminate |].
  cbn [JS.hex_digits]. destruct (n <? 16); [discriminate |].
  rewrite hex_digits_acc. destruct (JS.hex_digits _ _ ""); discriminate.
Qed.

(** What [toBigInt] reads from the array [toUint8Array] makes of a
    non-negative integer: the integer itself when its hexadecimal text has
    an even number of digits, and otherwise the integer with a zero digit
    slipped in before its last digit. *)
Theorem toBigInt_toUint8Array (n : Z) :
  0 <= n ->
  toBigInt (toUint8Array n)
  = Return (if Nat.even (String.length (JS.toString16 n)) then n
            else 16 * n - 15 * (n mod 16)).
Proof.
  intros Hn. destruct (toString16_value n Hn) as [Hv Hl].
  unfold toBigInt, toUint8Array. rewrite (hex_of_bytes_of_hex _ Hl).
  rewrite BigInt_lower_hex.
  - rewrite (pad_last_value _ Hl), Hv. reflexivity.
  - apply pad_last_nonempty, toString16_nonempty.
  - apply pad_last_lower_hex, Hl.
Qed.

(** The round trip from an integer holds exactly when the text has an even
    number of digits or a single digit. *)
Corollary toBigInt_toUint8Array_iff (n : Z) :
  0 <= n ->
  (toBigInt (toUint8Array n) = Return n
   <-> Nat.even (String.length (JS.toString16 n)) = true \/ n < 16).
Proof.
  intros Hn. rewrite (toBigInt_toUint8Array n Hn).
  destruct (Nat.even (String.length (JS.toString16 n))).
  - split; [left; reflexivity | reflexivity].
  - pose proof (Z.mod_pos_bound n 16 ltac:(lia)) as Hm.
    split.
    + intros E. assert (16 * n - 15 * (n mod 16) = n) by congruence.
      right. lia.
    + intros [H | H]; [discriminate |].
      rewrite Z.mod_small by lia. f_equal. lia.
Qed.

(** The number of rounds does not matter once it is large enough. *)
Lemma hex_digits_rounds (r1 : nat) :
  forall r2 n acc,
    0 <= n < 16 ^ Z.of_nat (S r1) -> n < 16 ^ Z.of_nat (S r2) ->
    JS.hex_digits (S r1) n acc = JS.hex_digits (S r2) n acc.
Proof.
  induction r1 as [| r1 IH]; intros r2 n acc H1 H2.
  - change (16 ^ Z.of_nat 1) with 16 in H1. cbn [JS.hex_digits].
    destruct (Z.ltb_spec n 16); [reflexivity | lia].
  - remember (S r1) as r1' eqn:E1. cbn [JS.hex_digits].
    destruct (Z.ltb_spec n 16) as [Hlt | Hge]; [reflexivity |].
    subst r1'. rewrite pow16_succ in H1.
    destruct r2 as [| r2]; [change (16 ^ Z.of_nat 1) with 16 in H2; lia |].
    rewrite pow16_succ in H2.
    apply IH.
    + split; [apply Z.div_pos; lia | apply Z.div_lt_upper_bound; lia].
    + apply Z.div_lt_upper_bound; lia.
Qed.

(** The text of [16 * m + d] is the text of [m] followed by the digit [d]. *)
Lemma toString16_snoc (m d : Z) :
  0 < m -> 0 <= d < 16 ->
  JS.toString16 (16 * m + d) = JS.toString16 m ++ String (JS.hex_char d) "".
Proof.
  intros Hm Hd. unfold JS.toString16.
  destruct (Z.ltb_spec (16 * m + d) 0) as [H | _]; [lia |].
  destruct (Z.ltb_spec m 0) as [H | _]; [lia |].
  set (n := 16 * m + d).
  assert (Hlog : 4 <= Z.log2 n).
  { apply Z.log2_le_pow2; [lia |]. change (2 ^ 4) with 16. lia. }
  destruct (Z.to_nat (Z.log2 n)) as [| R] eqn:ER; [lia |].
  remember (S R) as R' eqn:ER'. cbn [JS.hex_digits]. subst R'.
  destruct (Z.ltb_spec n 16) as [H | _]; [lia |].
  replace (n / 16) with m by (unfold n; apply (Z.div_unique _ _ _ d); lia).
  replace (n mod 16) with d by (unfold n; apply (Z.mod_unique_pos _ _ m); lia).
  rewrite hex_digits_acc. f_equal.
  apply hex_digits_rounds.
  - split; [lia |].
    pose proof (Z.log2_spec n ltac:(lia)) as [_ Hlt].
    assert (HR : Z.of_nat (S R) = Z.log2 n) by lia. rewrite HR.
    apply (Z.lt_le_trans _ (2 ^ Z.succ (Z.log2 n))); [lia |].
    change 16 with (2 ^ 4). rewrite <- Z.pow_mul_r by lia.
    apply Z.pow_le_mono_r; lia.
  - apply toString16_rounds. lia.
Qed.

Lemma toString16_digit (d : Z) :
  0 <= d < 16 -> JS.toString16 d = String (JS.hex_char d) "".
Proof. intros H. digit_cases H; reflexivity. Qed.

Lemma string_snoc_cases (s : string) :
  s <> "" -> exists s' c, s = s' ++ String c "".
Proof.
  induction s as [| c s IH]; [congruence |]. intros _.
  destruct s as [| c' s]; [exists "", c; reflexivity |].
  destruct IH as (s' & c'' & E); [discriminate |].
  exists (String c s'), c''. cbn [append]. rewrite <- E. reflexivity.
Qed.

Lemma string_length_app (s1 s2 : string) :
  String.length (s1 ++ s2) = (String.length s1 + String.length s2)%nat.
Proof.
  induction s1 as [| c s1 IH]; [reflexivity |].
  cbn [append String.length]. rewrite IH. reflexivity.
Qed.

Lemma string_snoc_ind (P : string -> Prop) :
  P "" -> (forall s c, P s -> P (s ++ String c "")) -> forall s, P s.
Proof.
  intros H0 Hs s.
  remember (String.length s) as len eqn:E. revert s E.
  induction len as [| len IH]; intros s E.
  - destruct s; [exact H0 | discriminate].
  - destruct (string_snoc_cases s) as (s' & c & ->); [intros ->; discriminate |].
    apply Hs, IH. rewrite string_length_app in E. cbn in E. lia.
Qed.

Lemma hex_value_nonneg (c : ascii) :
  0 <= match JS.hex_value c with Some d => d | None => 0 end.
Proof.
  unfold JS.hex_value.
  repeat match goal with
         | |- context [if ?b then _ else _] => destruct b eqn:?
         end; lia.
Qed.

Lemma digits_value_ge (digits : string) :
  forall acc, 0 <= acc -> acc <= digits_value acc digits.
Proof.
  induction digits as [| c r IH]; intros acc H; [cbn; lia |].
  cbn [digits_value]. pose proof (hex_value_nonneg c).
  etransitivity; [| apply IH]; lia.
Qed.

(** A text of lower-case digits that does not start with ["0"] is the text
    [toString(16)] writes for its value. *)
Lemma toString16_digits_value (digits : string) :
  lower_hex digits = true ->
  (forall r, digits <> String "0" r) ->
  digits <> "" ->
  JS.toString16 (digits_value 0 digits) = digits.
Proof.
  induction digits as [| s c IH] using string_snoc_ind; [congruence |].
  intros Hl Hfirst _.
  rewrite lower_hex_app in Hl. apply andb_prop in Hl. destruct Hl as [Hs Hc].
  cbn [lower_hex] in Hc. rewrite andb_true_r in Hc.
  destruct (lower_hex_char_cases c Hc) as (d & Hd & -> & Hv).
  rewrite digits_value_app. cbn [digits_value]. rewrite Hv.
  destruct s as [| c0 s].
  - cbn [digits_value append]. apply toString16_digit. exact Hd.
  - assert (Hfirst' : forall r, String c0 s <> String "0" r).
    { intros r E. apply (Hfirst (r ++ String (JS.hex_char d) "")).
      rewrite E. reflexivity. }
    assert (Hpos : 0 < digits_value 0 (String c0 s)).
    { cbn [digits_value lower_hex] in Hs |- *.
      apply andb_prop in Hs. destruct Hs as [Hc0 _].
      destruct (lower_hex_char_cases c0 Hc0) as (d0 & Hd0 & E0 & Hv0).
      rewrite Hv0.
      assert (d0 <> 0).
      { intros ->. apply (Hfirst' s). rewrite E0. reflexivity. }
      pose proof (digits_value_ge s (0 * 16 + d0) ltac:(lia)). lia. }
    rewrite Z.mul_comm, (toString16_snoc _ d Hpos Hd).
    rewrite (IH Hs Hfirst' ltac:(discriminate)). reflexivity.
Qed.

(** What [toUint8Array] stores for the digits of an array is the array. *)
Lemma bytes_of_hex_of_bytes (arr : Uint8Array) :
  bytes_of_hex (hex_of_bytes arr) = arr.
Proof.
  induction arr as [| b arr IH]; [reflexivity |].
  cbn [hex_of_bytes].
  assert (E : exists c1 c2, byte_hex b = String c1 (String c2 "") /\
                            ToUint8 (JS.parseInt16 (String c1 (String c2 ""))) = b).
  { destruct b; do 2 eexists; split; reflexivity. }
  destruct E as (c1 & c2 & -> & Hb).
  cbn [append bytes_of_hex]. rewrite Hb, IH. reflexivity.
Qed.

Lemma big_endian_digits_value (arr : Uint8Array) :
  big_endian arr = digits_value 0 (hex_of_bytes arr).
Proof.
  pose proof (hex_literal_tail_bytes arr 0) as H1.
  pose proof (hex_literal_tail_lower (hex_of_bytes arr) 0 (toHex_lower_hex arr)) as H2.
  unfold big_endian. congruence.
Qed.

(** C3, first law, where it holds: an array whose first byte is 0x10 or
    more comes back from [toBigInt] then [toUint8Array]. *)
Theorem toUint8Array_toBigInt (b : byte) (arr : Uint8Array) :
  16 <= byte_to_Z b ->
  (let* n := toBigInt (b :: arr) in Return (toUint8Array n)) = Return (b :: arr).
Proof.
  intros Hb. rewrite toBigInt_cons. cbn [cbind]. f_equal.
  unfold toUint8Array. rewrite big_endian_digits_value.
  rewrite toString16_digits_value.
  - apply bytes_of_hex_of_bytes.
  - apply toHex_lower_hex.
  - intros r E. cbn [hex_of_bytes] in E.
    destruct b; try (vm_compute in Hb; contradiction Hb; reflexivity);
      discriminate E.
  - cbn [hex_of_bytes]. destruct (byte_hex_chars b) as (c1 & c2 & -> & _).
    discriminate.
Qed.

(** ... and where it does not: with a first byte from 0x01 to 0x0f and at
    least one more byte, the first byte that comes back is 0x10 or more. *)
Theorem toUint8Array_toBigInt_low_first_byte (b b1 : byte) (arr : Uint8Array) :
  0 < byte_to_Z b < 16 ->
  exists n, toBigInt (b :: b1 :: arr) = Return n /\
            toUint8Array n <> b :: b1 :: arr.
Proof.
  intros Hb. exists (big_endian (b :: b1 :: arr)).
  split; [apply toBigInt_cons |].
  unfold toUint8Array. rewrite big_endian_digits_value.
  assert (E : exists c, byte_hex b = String "0" (String c "") /\
                        lower_hex_char c = true /\ c <> "0"%char /\
                        forall c', lower_hex_char c' = true ->
                          ToUint8 (JS.parseInt16 (String c (String c' ""))) <> b).
  { destruct b; try (exfalso; vm_compute in Hb; destruct Hb; discriminate);
      eexists; (split; [reflexivity |]); (split; [reflexivity |]);
      (split; [discriminate |]);
      intros c' Hc'; destruct (lower_hex_char_cases c' Hc') as (d & Hd & -> & _);
      digit_cases Hd; discriminate. }
  destruct E as (c & Eb & Hc & Hc0 & Hfirst).
  destruct (byte_hex_chars b1) as (h & l & Eb1 & _ & _ & Hh & Hl).
  assert (Ehex : hex_of_bytes (b :: b1 :: arr)
                 = String "0" (String c (String h (String l (hex_of_bytes arr))))).
  { cbn [hex_of_bytes]. rewrite Eb, Eb1. reflexivity. }
  rewrite Ehex.
  change (digits_value 0 (String "0" (String c (String h (String l (hex_of_bytes arr))))))
    with (digits_value 0 (String c (String h (String l (hex_of_bytes arr))))).
  rewrite toString16_digits_value.
  - cbn [bytes_of_hex]. intros [= E _]. exact (Hfirst h Hh E).
  - cbn [lower_hex]. rewrite Hc, Hh, Hl. apply toHex_lower_hex.
  - intros r [= E _]. contradiction.
  - discriminate.
Qed.

(** ** powMod *)

Lemma powMod_loop_more_fuel (fuel : nat) :
  forall result base exp p c,
    powMod_loop fuel result base exp p = c -> c <> Diverge ->
    forall fuel', (fuel <= fuel')%nat ->
      powMod_loop fuel' result base exp p = c.
Proof.
  induction fuel as [| fuel IH]; intros result base exp p c E Hc fuel' Hle.
  - cbn in E. congruence.
  - destruct fuel' as [| fuel']; [lia |].
    cbn [powMod_loop] in E |- *.
    destruct (exp =? 0); [exact E |].
    destruct (if Z.rem exp 2 =? 1 then JS.rem (result * base) p else Return result)
      as [r | e |]; cbn [cbind] in E |- *; try exact E.
    destruct (JS.rem (base * base) p) as [b | e |]; cbn [cbind] in E |- *;
      try exact E.
    apply (IH _ _ _ _ _ E Hc). lia.
Qed.

Lemma shiftr1_log2 (exp : Z) :
  0 < exp -> Z.shiftr exp 1 = 0 \/
             (0 < Z.shiftr exp 1 /\ Z.log2 (Z.shiftr exp 1) = Z.log2 exp - 1).
Proof.
  intros H. destruct (Z.eq_dec (Z.shiftr exp 1) 0) as [E | E]; [left; exact E |].
  right.
  assert (Hlog : ~ Z.log2 exp < 1).
  { intros Hlt. apply E. apply Z.shiftr_eq_0; lia. }
  split.
  - pose proof (proj2 (Z.shiftr_nonneg exp 1) ltac:(lia)). lia.
  - rewrite Z.log2_shiftr by exact H. lia.
Qed.

(** With a non-negative exponent and a modulus other than 0 the loop comes
    to its end within [powMod_fuel exp] tests. *)
Lemma powMod_loop_returns (fuel : nat) :
  forall result base exp p,
    p <> 0 -> 0 <= exp -> (Z.to_nat (Z.log2 exp) + 2 <= fuel)%nat ->
    exists r, powMod_loop fuel result base exp p = Return r.
Proof.
  induction fuel as [| fuel IH]; intros result base exp p Hp Hexp Hfuel; [lia |].
  cbn [powMod_loop].
  destruct (Z.eqb_spec exp 0) as [-> | Hne]; [eauto |].
  unfold JS.rem. destruct (Z.eqb_spec p 0) as [| _]; [contradiction |].
  destruct (Z.rem exp 2 =? 1); cbn [cbind].
  all: destruct (shiftr1_log2 exp ltac:(lia)) as [-> | [Hpos Hlog]];
    [ destruct fuel; [lia | cbn; eauto]
    | apply IH; [assumption | lia |];
      rewrite Hlog;
      assert (0 < Z.log2 exp) by (pose proof (Z.log2_nonneg (Z.shiftr exp 1)); lia);
      lia ].
Qed.

Lemma powMod_returns (base exp p : Z) :
  p <> 0 -> 0 <= exp -> exists r, powMod base exp p = Return r.
Proof.
  intros Hp Hexp. apply powMod_loop_returns; try assumption.
  unfold powMod_fuel. lia.
Qed.

(** [powMod] is what the loop gives with any larger fuel. *)
Lemma powMod_any_fuel (base exp p : Z) (fuel : nat) :
  p <> 0 -> 0 <= exp -> (powMod_fuel exp <= fuel)%nat ->
  powMod_loop fuel 1 base exp p = powMod base exp p.
Proof.
  intros Hp Hexp Hle.
  destruct (powMod_returns base exp p Hp Hexp) as [r Hr].
  rewrite Hr. apply (powMod_loop_more_fuel _ _ _ _ _ _ Hr); [discriminate | exact Hle].
Qed.

(** A negative exponent never reaches 0: with a modulus other than 0 the
    loop does not end. *)
Lemma powMod_loop_negative_exp (fuel : nat) :
  forall result base exp p,
    p <> 0 -> exp < 0 -> powMod_loop fuel result base exp p = Diverge.
Proof.
  induction fuel as [| fuel IH]; intros result base exp p Hp Hexp; [reflexivity |].
  cbn [powMod_loop].
  destruct (Z.eqb_spec exp 0) as [| _]; [lia |].
  unfold JS.rem. destruct (Z.eqb_spec p 0) as [| _]; [contradiction |].
  assert (Z.shiftr exp 1 < 0) by (apply (proj2 (Z.shiftr_neg exp 1)); exact Hexp).
  destruct (Z.rem exp 2 =? 1); cbn [cbind]; apply IH; assumption.
Qed.

(** C5.  With the exponent 0 [powMod] returns 1, whatever the base and the
    modulus; with the modulus 0 and any other exponent the first remainder
    raises a [RangeError], so that no value comes back from a division by
    zero. *)
Theorem powMod_zero_cases :
  (forall base p : Z, powMod base 0 p = Return 1) /\
  (forall base exp : Z, exp <> 0 -> powMod base exp 0 = Throw RangeError).
Proof.
  split.
  - intros base p. reflexivity.
  - intros base exp Hexp. unfold powMod, powMod_fuel. cbn [powMod_loop].
    destruct (Z.eqb_spec exp 0) as [| _]; [contradiction |].
    unfold JS.rem. cbn [Z.eqb].
    destruct (Z.rem exp 2 =? 1); reflexivity.
Qed.

Lemma powMod_zero_cases_witness :
  powMod 7 0 0 = Return 1 /\ powMod 7 5 0 = Throw RangeError.
Proof.
  split.
  - exact (proj1 powMod_zero_cases 7 0).
  - exact (proj2 powMod_zero_cases 7 5 ltac:(discriminate)).
Defined.

(** Once the base is non-negative and the result is not positive, the
    result stays in the range (-p, 0]. *)
Lemma powMod_loop_nonpos (fuel : nat) :
  forall result base exp p r,
    0 < p -> - p < result <= 0 -> 0 <= base ->
    powMod_loop fuel result base exp p = Return r -> - p < r <= 0.
Proof.
  induction fuel as [| fuel IH]; intros result base exp p r Hp Hres Hbase E;
    [discriminate |].
  cbn [powMod_loop] in E.
  destruct (exp =? 0); [injection E as <-; exact Hres |].
  unfold JS.rem in E. destruct (Z.eqb_spec p 0) as [| _]; [lia |].
  assert (Hb : 0 <= Z.rem (base * base) p)
    by (apply Z.rem_nonneg; nia).
  destruct (Z.rem exp 2 =? 1); cbn [cbind] in E.
  - apply (IH _ _ _ _ _ Hp) in E; [exact E | | exact Hb].
    apply Z.rem_bound_pos_neg; nia.
  - apply (IH _ _ _ _ _ Hp) in E; [exact E | exact Hres | exact Hb].
Qed.

(** A negative base under an odd exponent: the value [powMod] returns is
    never positive, so it is outside of [0, p) unless it is 0. *)
Lemma powMod_negative_base_odd_exp (base exp p : Z) :
  base < 0 -> 0 < exp -> Z.rem exp 2 = 1 -> 0 < p ->
  exists r, powMod base exp p = Return r /\ - p < r <= 0.
Proof.
  intros Hbase Hexp Hodd Hp.
  destruct (powMod_returns base exp p) as [r Hr]; [lia | lia |].
  exists r. split; [exact Hr |].
  unfold powMod, powMod_fuel in Hr.
  remember (S (Z.to_nat (Z.log2 exp))) as fuel eqn:Hfuel. clear Hfuel.
  cbn [powMod_loop] in Hr.
  destruct (Z.eqb_spec exp 0) as [| _]; [lia |].
  rewrite Hodd in Hr. cbn [Z.eqb Pos.eqb] in Hr.
  unfold JS.rem in Hr. destruct (Z.eqb_spec p 0) as [| _]; [lia |].
  cbn [cbind] in Hr.
  apply powMod_loop_nonpos in Hr; [exact Hr | exact Hp | |].
  - apply Z.rem_bound_pos_neg; lia.
  - apply Z.rem_nonneg; nia.
Qed.

Import ClientAuthenticate.

(** C10.  [powMod] keeps the sign of a negative base: [powMod(-2, 1, 5)] is
    -2, not 3.  In [computeS] the base is [B - k * g^x mod N]; on the sample
    client, where B = 2, k = 21 and g^x mod N = 5, [computeS] returns -5
    and [exchange] stores it as [S]. *)
Theorem powMod_result_can_be_negative :
  (exists base exp p r,
      base < 0 /\ 0 < exp /\ 0 < p /\
      powMod base exp p = Return r /\ r < 0) /\
  (exists wasm this B k x gx S,
      ca_B this = Some B /\
      fst (computeK wasm this) = Return k /\
      fst (computeX wasm this) = Return x /\
      powMod (group_g (ca_group this)) x (group_N (ca_group this)) = Return gx /\
      B < k * gx /\
      fst (computeS wasm this) = Return S /\ S < 0 /\
      fst (exchange wasm (Bytes [x02]) (Bytes [x2a]) Sample.initialized) = Return tt /\
      snd (exchange wasm (Bytes [x02]) (Bytes [x2a]) Sample.initialized) = this /\
      ca_S this = Some S).
Proof.
  split.
  - exists (-2), 1, 5, (-2).
    repeat (split; [vm_compute; reflexivity |]). vm_compute; reflexivity.
  - exists Sample.wasm, Sample.exchanged, 2, 21, 243, 5, (-5).
    repeat (split; [vm_compute; reflexivity |]). vm_compute; reflexivity.
Qed.

(** ** doesMatch *)

Lemma byte_eqb_true_iff (x y : byte) : byte_eqb x y = true <-> x = y.
Proof.
  unfold byte_eqb. split.
  - apply Byte.byte_dec_bl.
  - apply Byte.byte_dec_lb.
Qed.

Lemma doesMatch_loop_true_iff (a : Uint8Array) :
  forall b, List.length a = List.length b ->
    (doesMatch_loop a b = true <-> a = b).
Proof.
  induction a as [| x a IH]; intros [| y b] Hlen; try discriminate.
  - split; reflexivity.
  - cbn [doesMatch_loop]. injection Hlen as Hlen.
    destruct (byte_eqb x y) eqn:E; cbn [negb].
    + apply byte_eqb_true_iff in E. subst y. rewrite (IH b Hlen).
      split; [intros ->; reflexivity | intros [= ->]; reflexivity].
    + split; [discriminate |]. intros [= -> _].
      rewrite (proj2 (byte_eqb_true_iff y y) eq_refl) in E. discriminate.
Qed.

(** [doesMatch] is equality of byte sequences. *)
Lemma doesMatch_true_iff (a b : Uint8Array) : doesMatch a b = true <-> a = b.
Proof.
  unfold doesMatch. destruct (Nat.eqb_spec (List.length a) (List.length b)) as [E | E];
    cbn [negb].
  - apply doesMatch_loop_true_iff. exact E.
  - split; [discriminate |]. intros ->. contradiction.
Qed.

(** ** ClientAuthenticate *)

(** Without [A] the three methods that need it throw at their first
    statement and assign nothing. *)
Lemma authenticate_without_A (wasm : HashWasm) (this : ClientAuthenticate.t) :
  ca_A this = None -> snd (authenticate wasm this) = this.
Proof.
  intros HA. cbv [authenticate bind self throw]. rewrite HA.
  cbn [truthy]. destruct (truthy (ca_s this)); reflexivity.
Qed.

Lemma verifyServer_without_A
    (wasm : HashWasm) (this : ClientAuthenticate.t) (M2 : StringOrBytes) :
  ca_A this = None -> snd (verifyServer wasm M2 this) = this.
Proof.
  intros HA. cbv [verifyServer bind self throw]. rewrite HA. reflexivity.
Qed.

Lemma exchange_without_A
    (wasm : HashWasm) (this : ClientAuthenticate.t) (B s : StringOrBytes) :
  ca_A this = None ->
  exchange wasm B s this
  = (Throw (SRPError "A must be set before exchanging B"), this).
Proof.
  intros HA. cbv [exchange bind self]. rewrite HA. reflexivity.
Qed.

(** As long as [init] is not called, no [A] is stored. *)
Lemma without_init_no_A (wasm : HashWasm) (this : ClientAuthenticate.t) :
  without_init wasm this -> ca_A this = None.
Proof.
  induction 1 as [config | this B s _ IH | this _ IH | this M2 _ IH].
  - reflexivity.
  - rewrite (exchange_without_A wasm this B s IH). exact IH.
  - rewrite (authenticate_without_A wasm this IH). exact IH.
  - rewrite (verifyServer_without_A wasm this M2 IH). exact IH.
Qed.

(** C8.  On an instance with no [A] stored, which is the case of every
    instance on which [init] was not called, [exchange] throws the
    [SRPError] "A must be set before exchanging B", whatever [B] and [s]
    are, and leaves every field as it was. *)
Theorem exchange_before_init
    (wasm : HashWasm) (this : ClientAuthenticate.t) (B s : StringOrBytes) :
  ca_A this = None \/ without_init wasm this ->
  exchange wasm B s this
  = (Throw (SRPError "A must be set before exchanging B"), this).
Proof.
  intros [HA | Hnew]; apply exchange_without_A;
    [exact HA | exact (without_init_no_A wasm this Hnew)].
Qed.

Lemma exchange_before_init_witness :
  exchange Sample.wasm (Text "abcdef") (Bytes [x2a])
    (ClientAuthenticate.new Sample.config)
  = (Throw (SRPError "A must be set before exchanging B"),
     ClientAuthenticate.new Sample.config).
Proof.
  apply (exchange_before_init Sample.wasm (ClientAuthenticate.new Sample.config)
           (Text "abcdef") (Bytes [x2a])).
  right. apply wi_new.
Defined.

(** C1, as the code behaves.  With [A], [M1] and [K] set, [verifyServer]
    throws the [SRPSecurityViolation] exactly when the decoded [M2] EQUALS
    the expected value H(A, M1, K), and returns without error when it
    differs: the test [if (doesMatch(expected, M2))] is the opposite of what
    the method's documentation announces. *)
Theorem verifyServer_inverted
    (wasm : HashWasm) (this : ClientAuthenticate.t) (A : Z) (M1 K : Uint8Array)
    (input : StringOrBytes) (M2 : Uint8Array) :
  truthy (ca_A this) = Some A ->
  ca_M1 this = Some M1 ->
  ca_K this = Some K ->
  decode input = Return M2 ->
  let expected :=
    hash wasm (ca_algorithm this) [HBytes (toUint8Array A); HBytes M1; HBytes K] in
  (M2 = expected ->
   verifyServer wasm input this
   = (Throw (SRPSecurityViolation M2_mismatch_message), this)) /\
  (M2 <> expected -> verifyServer wasm input this = (Return tt, this)).
Proof.
  intros HA HM1 HK Hin expected.
  cbv [verifyServer bind self call throw ret].
  rewrite HA, HM1, HK, Hin. fold expected.
  destruct (doesMatch expected M2) eqn:E.
  - apply doesMatch_true_iff in E. split; [reflexivity | congruence].
  - split; [| reflexivity]. intros ->.
    rewrite (proj2 (doesMatch_true_iff expected expected) eq_refl) in E.
    discriminate.
Qed.

Lemma verifyServer_inverted_witness :
  verifyServer Sample.wasm (Bytes Sample.expected_M2) Sample.authenticated
  = (Throw (SRPSecurityViolation M2_mismatch_message), Sample.authenticated) /\
  verifyServer Sample.wasm (Bytes [x00]) Sample.authenticated
  = (Return tt, Sample.authenticated).
Proof.
  split.
  - apply (proj1 (verifyServer_inverted Sample.wasm Sample.authenticated
                    8 [x09] [xd4] (Bytes Sample.expected_M2) Sample.expected_M2
                    ltac:(vm_compute; reflexivity) ltac:(vm_compute; reflexivity)
                    ltac:(vm_compute; reflexivity) eq_refl)).
    vm_compute; reflexivity.
  - apply (proj2 (verifyServer_inverted Sample.wasm Sample.authenticated
                    8 [x09] [xd4] (Bytes [x00]) [x00]
                    ltac:(vm_compute; reflexivity) ltac:(vm_compute; reflexivity)
                    ltac:(vm_compute; reflexivity) eq_refl)).
    vm_compute; discriminate.
Defined.

(** The projections of an instance after assignments. *)
Ltac fields :=
  cbv beta iota;
  cbn [ca_I ca_p ca_group ca_algorithm ca_a ca_A ca_B ca_u ca_s ca_S ca_K ca_M1
       set_a set_A set_B set_u set_s set_S set_K set_M1].

Lemma truthy_Some (z : Z) : z <> 0 -> truthy (Some z) = Some z.
Proof.
  intros H. unfold truthy. destruct (Z.eqb_spec z 0); [contradiction | reflexivity].
Qed.

Lemma is_0n_Some (z : Z) : z <> 0 -> is_0n (Some z) = false.
Proof.
  intros H. unfold is_0n. destruct (Z.eqb_spec z 0); [contradiction | reflexivity].
Qed.



(** The conversions of the arguments either return or throw a
    [SyntaxError]. *)
Lemma BigInt_cases (text : string) :
  (exists n, JS.BigInt text = Return n) \/ JS.BigInt text = Throw SyntaxError.
Proof.
  unfold JS.BigInt.
  repeat match goal with
         | |- context [match ?x with _ => _ end] => destruct x
         end; eauto.
Qed.

Lemma toBigInt_cases (arr : Uint8Array) :
  (exists n, toBigInt arr = Return n) \/ toBigInt arr = Throw SyntaxError.
Proof. apply BigInt_cases. Qed.

Lemma decode_cases (x : StringOrBytes) :
  (exists bytes, decode x = Return bytes) \/ decode x = Throw SyntaxError.
Proof.
  destruct x as [text | bytes]; cbn [decode]; [| eauto].
  unfold toUint8Array_str.
  destruct (BigInt_cases (if JS.startsWith0x text then text else "0x" ++ text))
    as [[n ->] | ->]; cbn [cbind]; eauto.
Qed.

(** C2, as the code has it.  After [init], a [B] that decodes to the integer
    0 makes [exchange] throw, and [u], [S] and [K] are left as they were.
    The error is the [SRPError] about B = 0 whenever the salt argument can be
    decoded, and the [SyntaxError] of that decoding otherwise. *)
Theorem exchange_rejects_zero_B
    (wasm : HashWasm) (this : ClientAuthenticate.t) (Bin sin : StringOrBytes)
    (A : Z) (Bbytes : Uint8Array) :
  truthy (ca_A this) = Some A ->
  decode Bin = Return Bbytes ->
  toBigInt Bbytes = Return 0 ->
  (exists e,
      fst (exchange wasm Bin sin this) = Throw e /\
      (e = SRPError B_is_zero_message \/ e = SyntaxError) /\
      (forall sbytes s,
          decode sin = Return sbytes -> toBigInt sbytes = Return s ->
          e = SRPError B_is_zero_message)) /\
  ca_u (snd (exchange wasm Bin sin this)) = ca_u this /\
  ca_S (snd (exchange wasm Bin sin this)) = ca_S this /\
  ca_K (snd (exchange wasm Bin sin this)) = ca_K this.
Proof.
  intros HA HBin HB.
  cbv [exchange bind self call assign throw ret].
  rewrite HA, HBin, HB. fields.
  destruct (decode_cases sin) as [[sbytes Hsin] | Hsin]; rewrite Hsin; fields.
  - destruct (toBigInt_cases sbytes) as [[s Hs] | Hs]; rewrite Hs; fields.
    + cbn [is_0n Z.eqb fst snd]. fields.
      split; [| repeat split].
      exists (SRPError B_is_zero_message). repeat split; auto.
    + cbn [fst snd]. fields. split; [| repeat split].
      exists SyntaxError. repeat split; auto.
      intros sbytes' s' [= <-] Hs'. congruence.
  - cbn [fst snd]. fields. split; [| repeat split].
    exists SyntaxError. repeat split; auto.
    intros sbytes' s' Hs'. congruence.
Qed.

Lemma exchange_rejects_zero_B_witness :
  fst (exchange Sample.wasm (Text "00") (Bytes [x2a]) Sample.initialized)
  = Throw (SRPError B_is_zero_message) /\
  ca_K (snd (exchange Sample.wasm (Text "00") (Bytes [x2a]) Sample.initialized))
  = None.
Proof.
  destruct (exchange_rejects_zero_B Sample.wasm Sample.initialized
              (Text "00") (Bytes [x2a]) 8 [x00]
              ltac:(vm_compute; reflexivity) ltac:(vm_compute; reflexivity)
              ltac:(vm_compute; reflexivity))
    as [[e [He [_ Hkind]]] [_ [_ HK]]].
  split.
  - rewrite He. f_equal. apply (Hkind [x2a] 42); vm_compute; reflexivity.
  - rewrite HK. vm_compute; reflexivity.
Defined.

(** C2 fails for B = N.  In the group N = 23 the byte 17 (hexadecimal) is
    N itself: [exchange] does not throw, and it computes and stores u, S
    and K.  For B = 0 the error is a plain [SRPError], not an
    [SRPSecurityViolation]. *)
Lemma exchange_accepts_B_equal_N :
  group_N (ca_group Sample.initialized) = 23 /\
  toBigInt [x17] = Return 23 /\
  23 mod group_N (ca_group Sample.initialized) = 0 /\
  exchange Sample.wasm (Bytes [x17]) (Bytes [x2a]) Sample.initialized
  = (Return tt,
     set_K [xeb] (set_S 18 (set_u 86 (set_s 42 (set_B 23 Sample.initialized))))) /\
  ~ (exists message,
        fst (exchange Sample.wasm (Bytes [x17]) (Bytes [x2a]) Sample.initialized)
        = Throw (SRPSecurityViolation message)) /\
  fst (exchange Sample.wasm (Bytes [x00]) (Bytes [x2a]) Sample.initialized)
  = Throw (SRPError B_is_zero_message).
Proof.
  repeat (split; [vm_compute; reflexivity |]).
  split; [| vm_compute; reflexivity].
  intros [message E]. vm_compute in E. discriminate.
Qed.

(** ** ServerSetup *)

Lemma string_length_0 (text : string) :
  Nat.eqb (String.length text) 0 = true <-> text = "".
Proof. destruct text; cbn; split; congruence. Qed.

Lemma list_length_0 (arr : Uint8Array) :
  Nat.eqb (List.length arr) 0 = true <-> arr = [].
Proof. destruct arr; cbn; split; congruence. Qed.

(** The test on [s] in [verify] never throws: [toBigInt] is called on a
    non-empty array only. *)
Lemma verify_salt_test (s : Uint8Array) :
  (if Nat.eqb (List.length s) 0 then Return true
   else let* n := toBigInt s in Return (n =? 0))
  = Return (match s with [] => true | _ :: _ => big_endian s =? 0 end).
Proof.
  destruct s as [| b s]; [reflexivity |].
  cbn [List.length Nat.eqb]. rewrite toBigInt_cons. reflexivity.
Qed.

(** [verify] as a cascade of three tests on the fields. *)
Lemma verify_outcome (this : ServerSetup.t) :
  ServerSetup.verify this
  = if Nat.eqb (String.length (ServerSetup.ss_I this)) 0
    then Throw (SRPError "I must not be empty")
    else if match ServerSetup.ss_s this with
            | [] => true
            | _ :: _ => big_endian (ServerSetup.ss_s this) =? 0
            end
         then Throw (SRPSecurityViolation "s must not be empty or equal zero")
         else if ServerSetup.ss_v this =? 0
              then Throw (SRPSecurityViolation "v must not be zero")
              else ServerSetup.getCredentials this.
Proof.
  unfold ServerSetup.verify. rewrite verify_salt_test. reflexivity.
Qed.





(** * Further properties of the code *)

(** ** powMod is modular exponentiation *)

Lemma rem_mod (a p : Z) : p <> 0 -> (Z.rem a p) mod p = a mod p.
Proof.
  intros Hp. pose proof (Z.quot_rem' a p) as E.
  replace (Z.rem a p) with (a + (- (a ÷ p)) * p) by lia.
  apply Z.mod_add. exact Hp.
Qed.

Lemma pow_mod_base (a n q : Z) :
  n <> 0 -> 0 <= q -> ((a mod n) ^ q) mod n = (a ^ q) mod n.
Proof.
  intros Hn Hq. revert q Hq. apply natlike_ind.
  - reflexivity.
  - intros q Hq IH. rewrite !Z.pow_succ_r by exact Hq.
    rewrite Z.mul_mod by exact Hn. rewrite IH, Z.mod_mod by exact Hn.
    rewrite <- Z.mul_mod by exact Hn. reflexivity.
Qed.

Lemma exp_halves (exp : Z) :
  0 <= exp -> exp = 2 * Z.shiftr exp 1 + Z.rem exp 2 /\ 0 <= Z.shiftr exp 1 /\
              (Z.rem exp 2 = 0 \/ Z.rem exp 2 = 1).
Proof.
  intros H. rewrite Z.shiftr_div_pow2 by lia. change (2 ^ 1) with 2.
  rewrite Z.rem_mod_nonneg by lia.
  pose proof (Z.div_mod exp 2 ltac:(lia)).
  pose proof (Z.mod_pos_bound exp 2 ltac:(lia)).
  pose proof (Z.div_pos exp 2 H ltac:(lia)). lia.
Qed.

(** The loop keeps [result * base ^ exp] the same modulo [p]. *)
Lemma powMod_loop_congruent (fuel : nat) :
  forall result base exp p r,
    p <> 0 -> 0 <= exp ->
    powMod_loop fuel result base exp p = Return r ->
    r mod p = (result * base ^ exp) mod p.
Proof.
  induction fuel as [| fuel IH]; intros result base exp p r Hp Hexp E;
    [discriminate |].
  cbn [powMod_loop] in E.
  destruct (Z.eqb_spec exp 0) as [-> | Hne].
  - injection E as <-. rewrite Z.pow_0_r, Z.mul_1_r. reflexivity.
  - unfold JS.rem in E. destruct (Z.eqb_spec p 0) as [| _]; [contradiction |].
    destruct (exp_halves exp Hexp) as (Eexp & Hq & Hbit).
    set (q := Z.shiftr exp 1) in *.
    assert (Hsq : ((Z.rem (base * base) p) ^ q) mod p = (base ^ (2 * q)) mod p).
    { rewrite <- (pow_mod_base (Z.rem (base * base) p)) by assumption.
      rewrite rem_mod by exact Hp. rewrite pow_mod_base by assumption.
      rewrite Z.pow_mul_r by lia. rewrite Z.pow_2_r. reflexivity. }
    destruct (Z.eqb_spec (Z.rem exp 2) 1) as [Hodd | Heven]; cbn [cbind] in E.
    + apply IH in E; try assumption. rewrite E.
      rewrite Z.mul_mod, Hsq, rem_mod by exact Hp.
      rewrite <- Z.mul_mod by exact Hp.
      replace exp with (Z.succ (2 * q)) by lia.
      rewrite Z.pow_succ_r by lia. f_equal. ring.
    + apply IH in E; try assumption. rewrite E.
      rewrite Z.mul_mod, Hsq by exact Hp.
      rewrite <- Z.mul_mod by exact Hp.
      replace exp with (2 * q) by lia. reflexivity.
Qed.

(** With a non-negative base the result never leaves [0, p), once one
    product has been reduced. *)
Lemma powMod_loop_range (fuel : nat) :
  forall result base exp p r,
    0 < p -> 0 <= exp -> 0 <= result -> 0 <= base ->
    powMod_loop fuel result base exp p = Return r ->
    0 <= r /\ (result < p \/ 0 < exp -> r < p).
Proof.
  induction fuel as [| fuel IH]; intros result base exp p r Hp Hexp Hres Hbase E;
    [discriminate |].
  cbn [powMod_loop] in E.
  destruct (Z.eqb_spec exp 0) as [-> | Hne].
  - injection E as <-. split; [exact Hres | intros [H | H]; lia].
  - unfold JS.rem in E. destruct (Z.eqb_spec p 0) as [| _]; [lia |].
    destruct (exp_halves exp Hexp) as (Eexp & Hq & Hbit).
    pose proof (Z.rem_bound_pos_pos (base * base) p Hp ltac:(nia)) as Hb.
    destruct (Z.eqb_spec (Z.rem exp 2) 1) as [Hodd | Heven]; cbn [cbind] in E.
    + pose proof (Z.rem_bound_pos_pos (result * base) p Hp ltac:(nia)) as Hr.
      apply IH in E; lia.
    + apply IH in E; lia.
Qed.

(** For every exponent that is not negative and every modulus other than 0,
    [powMod] returns, and what it returns is congruent to [base ^ exp]
    modulo [p]. *)
Theorem powMod_congruent (base exp p : Z) :
  p <> 0 -> 0 <= exp ->
  exists r, powMod base exp p = Return r /\ r mod p = (base ^ exp) mod p.
Proof.
  intros Hp Hexp. destruct (powMod_returns base exp p Hp Hexp) as [r Hr].
  exists r. split; [exact Hr |].
  rewrite (powMod_loop_congruent _ _ _ _ _ _ Hp Hexp Hr). f_equal. lia.
Qed.

Lemma powMod_congruent_witness :
  exists r, powMod (-2) 3 5 = Return r /\ r mod 5 = ((-2) ^ 3) mod 5.
Proof.
  apply (powMod_congruent (-2) 3 5); [discriminate | discriminate].
Defined.

(** With a base that is not negative, a positive exponent and a positive
    modulus, [powMod] returns [base ^ exp mod p], in the range [0, p). *)
Theorem powMod_exact (base exp p : Z) :
  0 <= base -> 0 < exp -> 0 < p ->
  powMod base exp p = Return ((base ^ exp) mod p).
Proof.
  intros Hbase Hexp Hp.
  destruct (powMod_returns base exp p ltac:(lia) ltac:(lia)) as [r Hr].
  rewrite Hr. f_equal.
  pose proof (powMod_loop_congruent _ 1 base exp p r ltac:(lia) ltac:(lia) Hr) as Hc.
  pose proof (powMod_loop_range _ 1 base exp p r Hp ltac:(lia) ltac:(lia) Hbase Hr)
    as [H0 Hlt].
  rewrite Z.mul_1_l in Hc. rewrite <- Hc.
  symmetry. apply Z.mod_small. split; [exact H0 | apply Hlt; right; exact Hexp].
Qed.

Lemma powMod_exact_witness : powMod 5 6 23 = Return ((5 ^ 6) mod 23).
Proof. apply (powMod_exact 5 6 23); [discriminate | reflexivity | reflexivity]. Defined.

(** A negative exponent with a modulus other than 0: the loop never ends,
    whatever the number of rounds it is given. *)
Theorem powMod_negative_exponent (base exp p : Z) :
  exp < 0 -> p <> 0 ->
  powMod base exp p = Diverge /\
  forall fuel, powMod_loop fuel 1 base exp p = Diverge.
Proof.
  intros Hexp Hp. split; [apply powMod_loop_negative_exp; assumption |].
  intros fuel. apply powMod_loop_negative_exp; assumption.
Qed.

Lemma powMod_negative_exponent_witness :
  powMod 3 (-1) 7 = Diverge /\ forall fuel, powMod_loop fuel 1 3 (-1) 7 = Diverge.
Proof. apply (powMod_negative_exponent 3 (-1) 7); [reflexivity | discriminate]. Defined.

(** With a negative base and an odd exponent the value returned is in
    (-p, 0]: it is never a positive residue. *)
Theorem powMod_negative_base_sign (base exp p : Z) :
  base < 0 -> 0 < exp -> Z.rem exp 2 = 1 -> 0 < p ->
  exists r, powMod base exp p = Return r /\ - p < r <= 0 /\
            r mod p = (base ^ exp) mod p.
Proof.
  intros Hbase Hexp Hodd Hp.
  destruct (powMod_negative_base_odd_exp base exp p Hbase Hexp Hodd Hp)
    as (r & Hr & Hrange).
  exists r. split; [exact Hr |]. split; [exact Hrange |].
  pose proof (powMod_loop_congruent _ 1 base exp p r ltac:(lia) ltac:(lia) Hr) as Hc.
  rewrite Hc. f_equal. lia.
Qed.

Lemma powMod_negative_base_sign_witness :
  exists r, powMod (-2) 3 5 = Return r /\ - 5 < r <= 0 /\
            r mod 5 = ((-2) ^ 3) mod 5.
Proof.
  apply (powMod_negative_base_sign (-2) 3 5); reflexivity.
Defined.

(** ** The order in which a ClientAuthenticate instance is filled *)

Lemma truthy_is_set (o : option Z) (z : Z) : truthy o = Some z -> is_set o.
Proof. destruct o; [discriminate | discriminate]. Qed.

(** Splits a method body along every test and every call it makes. *)
Ltac run_method :=
  repeat (fields;
          match goal with
          | |- context [match ?x with _ => _ end] =>
              lazymatch x with
              | context [match _ with _ => _ end] => fail
              | _ => destruct x eqn:?
              end
          end).

Ltac settle_order :=
  unfold fields_in_order, is_set in *; fields; cbn [fst snd]; fields;
  repeat match goal with
         | H : truthy ?o = Some _ |- _ => apply truthy_is_set in H; unfold is_set in H
         end;
  intuition congruence.

Lemma init_keeps_order (random256 : Uint8Array) (this : ClientAuthenticate.t) :
  fields_in_order this -> fields_in_order (snd (init random256 this)).
Proof.
  intros H. cbv [init computeA bind self call assign ret].
  run_method; settle_order.
Qed.

Lemma exchange_keeps_order
    (wasm : HashWasm) (B s : StringOrBytes) (this : ClientAuthenticate.t) :
  fields_in_order this -> fields_in_order (snd (exchange wasm B s this)).
Proof.
  intros H.
  cbv [exchange bind self call assign throw ret computeU computeS computeK computeX].
  run_method; settle_order.
Qed.

Lemma authenticate_keeps_order (wasm : HashWasm) (this : ClientAuthenticate.t) :
  fields_in_order this -> fields_in_order (snd (authenticate wasm this)).
Proof.
  intros H. cbv [authenticate bind self assign throw ret].
  run_method; settle_order.
Qed.

Lemma verifyServer_changes_nothing
    (wasm : HashWasm) (M2 : StringOrBytes) (this : ClientAuthenticate.t) :
  snd (verifyServer wasm M2 this) = this.
Proof.
  cbv [verifyServer bind self call throw ret]. run_method; reflexivity.
Qed.

(** ** More on the codec *)

Lemma hex_char_nonzero (d : Z) : 0 < d < 16 -> JS.hex_char d <> "0"%char.
Proof.
  intros Hd. assert (H : 0 <= d < 16) by lia.
  digit_cases H; try lia; discriminate.
Qed.

Lemma hex_digits_first (rounds : nat) :
  forall n acc, 0 < n < 16 ^ Z.of_nat (S rounds) ->
    exists c rest, JS.hex_digits (S rounds) n acc = String c rest /\ c <> "0"%char.
Proof.
  induction rounds as [| r IH]; intros n acc Hn.
  - change (16 ^ Z.of_nat 1) with 16 in Hn. cbn [JS.hex_digits].
    destruct (Z.ltb_spec n 16) as [_ | H]; [| lia].
    exists (JS.hex_char n), acc. split; [reflexivity | apply hex_char_nonzero; lia].
  - rewrite pow16_succ in Hn. remember (S r) as r' eqn:Er. cbn [JS.hex_digits].
    destruct (Z.ltb_spec n 16) as [Hlt | Hge].
    + exists (JS.hex_char n), acc.
      split; [reflexivity | apply hex_char_nonzero; lia].
    + subst r'. apply IH. split.
      * apply Z.div_str_pos. lia.
      * apply Z.div_lt_upper_bound; lia.
Qed.

Lemma toString16_first (n : Z) :
  0 < n -> exists c rest, JS.toString16 n = String c rest /\ c <> "0"%char.
Proof.
  intros Hn. unfold JS.toString16. destruct (Z.ltb_spec n 0) as [H | _]; [lia |].
  apply hex_digits_first. split; [exact Hn | apply toString16_rounds; lia].
Qed.

Lemma single_byte_round_trip (b : byte) : toUint8Array (byte_to_Z b) = [b].
Proof. destruct b; reflexivity. Qed.

(** The array of a non-negative integer is never empty, and it has a single
    byte or starts with a byte that is 0x10 or more. *)
Lemma toUint8Array_shape (n : Z) :
  0 <= n ->
  exists b arr, toUint8Array n = b :: arr /\ (16 <= byte_to_Z b \/ arr = []).
Proof.
  intros Hn. destruct (Z.eq_dec n 0) as [-> | Hne].
  - exists x00, []. split; [reflexivity | right; reflexivity].
  - destruct (toString16_first n ltac:(lia)) as (c & rest & E & Hc).
    destruct (toString16_value n Hn) as [_ Hl].
    unfold toUint8Array. rewrite E in Hl |- *.
    cbn [lower_hex] in Hl. apply andb_prop in Hl. destruct Hl as [Hlc Hlr].
    destruct rest as [| c2 rest].
    + eexists _, []. split; [reflexivity | right; reflexivity].
    + cbn [lower_hex] in Hlr. apply andb_prop in Hlr. destruct Hlr as [Hl2 _].
      cbn [bytes_of_hex]. eexists _, _. split; [reflexivity |]. left.
      destruct (lower_hex_char_cases c Hlc) as (d1 & Hd1 & -> & _).
      destruct (lower_hex_char_cases c2 Hl2) as (d2 & Hd2 & -> & _).
      digit_cases Hd1; try (exfalso; apply Hc; reflexivity);
        digit_cases Hd2; vm_compute; discriminate.
Qed.

Lemma bytes_round_trip_cons (b : byte) (arr : Uint8Array) :
  16 <= byte_to_Z b \/ arr = [] ->
  toUint8Array (big_endian (b :: arr)) = b :: arr.
Proof.
  intros [Hb | ->].
  - pose proof (toUint8Array_toBigInt b arr Hb) as E.
    rewrite toBigInt_cons in E. cbn [cbind] in E. congruence.
  - change (big_endian [b]) with (0 * 256 + byte_to_Z b). rewrite Z.mul_0_l, Z.add_0_l.
    apply single_byte_round_trip.
Qed.

(** The integer trip of C3 in closed form, and when it gives the integer
    back: exactly when the hexadecimal text has an even number of digits or
    one digit. *)
Theorem integer_round_trip_closed_form (n : Z) :
  0 <= n ->
  toBigInt (toUint8Array n)
  = Return (if Nat.even (String.length (JS.toString16 n)) then n
            else 16 * n - 15 * (n mod 16)) /\
  (toBigInt (toUint8Array n) = Return n
   <-> Nat.even (String.length (JS.toString16 n)) = true \/ n < 16).
Proof.
  intros Hn. split; [apply toBigInt_toUint8Array | apply toBigInt_toUint8Array_iff];
    exact Hn.
Qed.

Lemma integer_round_trip_closed_form_witness :
  toBigInt (toUint8Array 74565) = Return (16 * 74565 - 15 * (74565 mod 16)) /\
  toBigInt (toUint8Array 4660) = Return 4660.
Proof.
  split.
  - exact (proj1 (integer_round_trip_closed_form 74565 ltac:(discriminate))).
  - exact (proj1 (integer_round_trip_closed_form 4660 ltac:(discriminate))).
Defined.

(** The byte trip of C3 holds for every single byte and for every array
    whose first byte is 0x10 or more. *)
Theorem bytes_round_trip (b : byte) (arr : Uint8Array) :
  16 <= byte_to_Z b \/ arr = [] ->
  (let* n := toBigInt (b :: arr) in Return (toUint8Array n)) = Return (b :: arr).
Proof.
  intros H. rewrite toBigInt_cons. cbn [cbind]. f_equal.
  apply bytes_round_trip_cons. exact H.
Qed.

Lemma bytes_round_trip_witness :
  (let* n := toBigInt [xab; x00; x07] in Return (toUint8Array n))
  = Return [xab; x00; x07] /\
  (let* n := toBigInt [x07] in Return (toUint8Array n)) = Return [x07].
Proof.
  split.
  - apply (bytes_round_trip xab [x00; x07]). left. vm_compute; discriminate.
  - apply (bytes_round_trip x07 []). right. reflexivity.
Defined.

(** The byte trip fails for every array of two bytes or more whose first
    byte is between 0x01 and 0x0f. *)
Theorem bytes_round_trip_low_first_byte (b b1 : byte) (arr : Uint8Array) :
  0 < byte_to_Z b < 16 ->
  (let* n := toBigInt (b :: b1 :: arr) in Return (toUint8Array n))
  <> Return (b :: b1 :: arr).
Proof.
  intros Hb.
  destruct (toUint8Array_toBigInt_low_first_byte b b1 arr Hb) as (n & -> & Hne).
  cbn [cbind]. congruence.
Qed.

Lemma bytes_round_trip_low_first_byte_witness :
  0 < byte_to_Z x0f < 16 /\
  (let* n := toBigInt [x0f; xff] in Return (toUint8Array n)) <> Return [x0f; xff].
Proof.
  assert (H : 0 < byte_to_Z x0f < 16) by (vm_compute; split; reflexivity).
  split; [exact H |].
  exact (bytes_round_trip_low_first_byte x0f xff [] H).
Defined.

(** What [toUint8Array] makes of a non-negative integer is not empty and is
    stable: reading it with [toBigInt] and writing the integer again gives
    the same array, also where the integer read differs from the first
    one. *)
Theorem toUint8Array_stable (n : Z) :
  0 <= n ->
  toUint8Array n <> [] /\
  (let* m := toBigInt (toUint8Array n) in Return (toUint8Array m))
  = Return (toUint8Array n).
Proof.
  intros Hn. destruct (toUint8Array_shape n Hn) as (b & arr & E & H).
  rewrite E. split; [discriminate |].
  rewrite toBigInt_cons. cbn [cbind]. f_equal. apply bytes_round_trip_cons. exact H.
Qed.

Lemma toUint8Array_stable_witness :
  toUint8Array 291 <> [] /\
  (let* m := toBigInt (toUint8Array 291) in Return (toUint8Array m))
  = Return (toUint8Array 291).
Proof. apply (toUint8Array_stable 291). discriminate. Defined.

(** Leading zero bytes do not count: an array and the same array after
    zero bytes are read as the same integer. *)
Theorem toBigInt_leading_zero (b : byte) (arr : Uint8Array) :
  toBigInt (x00 :: b :: arr) = toBigInt (b :: arr).
Proof. rewrite !toBigInt_cons. reflexivity. Qed.

Lemma startsWith0x_toHex (arr : Uint8Array) : JS.startsWith0x (toHex arr) = false.
Proof.
  destruct arr as [| b arr]; [reflexivity |].
  unfold toHex. cbn [hex_of_bytes].
  destruct (byte_hex_chars b) as (c1 & c2 & -> & _ & _ & _ & H2).
  cbn [append JS.startsWith0x].
  destruct (lower_hex_char_cases c2 H2) as (d & Hd & -> & _).
  digit_cases Hd; destruct c1 as [[] [] [] [] [] [] [] []]; reflexivity.
Qed.

(** Decoding the text [toHex] writes for an array is the byte trip through
    the integer: it gives the array back when its first byte is 0x10 or
    more or when it has one byte, and it throws on the text of the empty
    array. *)
Theorem toHex_decoded (arr : Uint8Array) :
  toUint8Array_str (toHex arr)
  = (let* n := toBigInt arr in Return (toUint8Array n)) /\
  toUint8Array_str (toHex []) = Throw SyntaxError /\
  (forall b rest, arr = b :: rest -> 16 <= byte_to_Z b \/ rest = [] ->
                  toUint8Array_str (toHex arr) = Return arr).
Proof.
  assert (E : toUint8Array_str (toHex arr)
              = (let* n := toBigInt arr in Return (toUint8Array n))).
  { unfold toUint8Array_str. rewrite startsWith0x_toHex. reflexivity. }
  split; [exact E |]. split; [reflexivity |].
  intros b rest -> H. rewrite E. apply bytes_round_trip. exact H.
Qed.

Lemma toHex_decoded_witness :
  toUint8Array_str (toHex [xab; x00; x07]) = Return [xab; x00; x07].
Proof.
  apply (proj2 (proj2 (toHex_decoded [xab; x00; x07])) xab [x00; x07] eq_refl).
  left. vm_compute; discriminate.
Defined.

(** [toHex] writes two lower-case digits for each byte, and two arrays with
    the same text are the same array. *)
Theorem toHex_injective (a b : Uint8Array) :
  lower_hex (toHex a) = true /\
  String.length (toHex a) = (2 * List.length a)%nat /\
  (toHex a = toHex b -> a = b).
Proof.
  split; [apply toHex_lower_hex |]. split; [apply toHex_length |].
  intros E. rewrite <- (bytes_of_hex_of_bytes a), <- (bytes_of_hex_of_bytes b).
  unfold toHex in E. rewrite E. reflexivity.
Qed.


(** [toHex] on a non-negative [bigint] is its hexadecimal text when the text
    has an even number of digits; with an odd number of digits a ["0"] comes
    before the last digit (0x123 gives ["1203"]). *)
Theorem toHex_bigint_text (n : Z) :
  0 <= n ->
  toHex_bigint n = pad_last (JS.toString16 n) /\
  (Nat.even (String.length (JS.toString16 n)) = true ->
   toHex_bigint n = JS.toString16 n).
Proof.
  intros Hn. destruct (toString16_value n Hn) as [_ Hl].
  assert (E : toHex_bigint n = pad_last (JS.toString16 n)).
  { unfold toHex_bigint, toHex, toUint8Array. apply hex_of_bytes_of_hex. exact Hl. }
  split; [exact E |]. intros Heven. rewrite E.
  clear E Hl. revert Heven.
  induction (JS.toString16 n) as [| c | c1 c2 r IH] using string_pair_ind.
  - reflexivity.
  - discriminate.
  - cbn [String.length Nat.even pad_last]. intros H. rewrite (IH H). reflexivity.
Qed.

Lemma toHex_bigint_text_witness :
  toHex_bigint 291 = "1203" /\ toHex_bigint 4660 = "1234".
Proof.
  split.
  - exact (proj1 (toHex_bigint_text 291 ltac:(discriminate))).
  - exact (proj2 (toHex_bigint_text 4660 ltac:(discriminate)) eq_refl).
Defined.

(** [doesMatch] is equality of the two arrays: [true] exactly when they have
    the same length and the same bytes. *)
Theorem doesMatch_is_equality (a b : Uint8Array) :
  (doesMatch a b = true <-> a = b) /\
  (List.length a <> List.length b -> doesMatch a b = false) /\
  doesMatch a b = doesMatch b a.
Proof.
  split; [apply doesMatch_true_iff |]. split.
  - intros Hlen. destruct (doesMatch a b) eqn:E; [| reflexivity].
    apply doesMatch_true_iff in E. subst b. contradiction.
  - destruct (doesMatch a b) eqn:E1, (doesMatch b a) eqn:E2; try reflexivity.
    + apply doesMatch_true_iff in E1. subst b.
      rewrite (proj2 (doesMatch_true_iff a a) eq_refl) in E2. discriminate.
    + apply doesMatch_true_iff in E2. subst b.
      rewrite (proj2 (doesMatch_true_iff a a) eq_refl) in E1. discriminate.
Qed.

Lemma doesMatch_is_equality_witness : doesMatch [x01] [x01; x02] = false.
Proof.
  apply (proj1 (proj2 (doesMatch_is_equality [x01] [x01; x02]))). discriminate.
Defined.

(** ** hash *)

(** [hash] digests the inputs as one buffer: where one input ends and the
    next begins does not count, a text counts as its encoded bytes, and an
    empty input does not count at all. *)
Theorem hash_of_concatenation
    (wasm : HashWasm) (algorithm : Algorithm) (a b : Uint8Array) (text : string)
    (rest : list Hashable) :
  hash wasm algorithm (HBytes a :: HBytes b :: rest)
  = hash wasm algorithm (HBytes (a ++ b)%list :: rest) /\
  hash wasm algorithm (HText text :: rest)
  = hash wasm algorithm (HBytes (JS.TextEncoder_encode text) :: rest) /\
  hash wasm algorithm (HBytes [] :: rest) = hash wasm algorithm rest.
Proof.
  unfold hash. cbn [map List.concat]. rewrite app_assoc.
  repeat split; reflexivity.
Qed.

(** ** ClientAuthenticate, step by step *)

(** Every instance a program can get has its fields filled in the order of
    the protocol: no [K] without [S], [u], [s], [B], [A] and [a], and no
    [M1] without [K]. *)
Theorem client_fields_in_order (wasm : HashWasm) (this : ClientAuthenticate.t) :
  client_reachable wasm this -> fields_in_order this.
Proof.
  induction 1 as [config | this r _ IH | this B s _ IH | this _ IH | this M2 _ IH].
  - unfold fields_in_order, is_set. cbn. intuition congruence.
  - apply init_keeps_order, IH.
  - apply exchange_keeps_order, IH.
  - apply authenticate_keeps_order, IH.
  - rewrite verifyServer_changes_nothing. exact IH.
Qed.

Lemma client_fields_in_order_witness : fields_in_order Sample.exchanged.
Proof.
  apply (client_fields_in_order Sample.wasm Sample.exchanged).
  apply cr_exchange, cr_init, cr_new.
Defined.

(** [verifyServer] assigns no field, whatever its outcome. *)
Theorem verifyServer_assigns_nothing
    (wasm : HashWasm) (M2 : StringOrBytes) (this : ClientAuthenticate.t) :
  snd (verifyServer wasm M2 this) = this.
Proof.
  cbv [verifyServer bind self call throw ret]. run_method; reflexivity.
Qed.

(** Without [A], [M1] or [K], [verifyServer] throws its [SRPError] before it
    looks at [M2], so also for an [M2] that cannot be decoded. *)
Theorem verifyServer_out_of_order
    (wasm : HashWasm) (M2 : StringOrBytes) (this : ClientAuthenticate.t) :
  truthy (ca_A this) = None \/ ca_M1 this = None \/ ca_K this = None ->
  verifyServer wasm M2 this
  = (Throw (SRPError "A, M1, and K must be set before verifying the server"), this).
Proof.
  intros H. cbv [verifyServer bind self call throw ret].
  destruct H as [H | [H | H]]; rewrite H;
    repeat match goal with
           | |- context [match ?x with _ => _ end] => destruct x
           end; reflexivity.
Qed.

Lemma verifyServer_out_of_order_witness :
  verifyServer Sample.wasm (Text "not hexadecimal") Sample.exchanged
  = (Throw (SRPError "A, M1, and K must be set before verifying the server"),
     Sample.exchanged).
Proof.
  apply (verifyServer_out_of_order Sample.wasm (Text "not hexadecimal") Sample.exchanged).
  right; left. vm_compute; reflexivity.
Defined.

(** [authenticate] throws its [SRPError], and assigns nothing, exactly when
    [s], [A] or [B] is unset or zero or [K] is unset; it has no other
    error. *)
Theorem authenticate_out_of_order (wasm : HashWasm) (this : ClientAuthenticate.t) :
  (truthy (ca_s this) = None \/ truthy (ca_A this) = None
   \/ truthy (ca_B this) = None \/ ca_K this = None
   <-> authenticate wasm this
       = (Throw (SRPError "s, A, B, and K must be set before authenticating"), this)) /\
  (forall e, fst (authenticate wasm this) = Throw e ->
             e = SRPError "s, A, B, and K must be set before authenticating") /\
  fst (authenticate wasm this) <> Diverge.
Proof.
  cbv [authenticate bind self assign throw ret].
  destruct (truthy (ca_s this)), (truthy (ca_A this)), (truthy (ca_B this)),
    (ca_K this); cbn [fst];
    (split; [split; [intros [H | [H | [H | H]]]; (discriminate || reflexivity)
                    | intros H; (discriminate || tauto)]
            | split; [intros e E; (discriminate || congruence) | discriminate]]).
Qed.

(** When [exchange] has returned, [authenticate] returns: it computes
    M1 = H(H(N) xor H(g), I, s, A, B, K) from the fields [exchange] left,
    stores it and returns it with its text. *)
Theorem exchange_then_authenticate
    (wasm : HashWasm) (Bin sin : StringOrBytes) (this this1 : ClientAuthenticate.t) :
  exchange wasm Bin sin this = (Return tt, this1) ->
  exists s A B K,
    truthy (ca_s this1) = Some s /\ truthy (ca_A this1) = Some A /\
    truthy (ca_B this1) = Some B /\ ca_K this1 = Some K /\
    let H := hash wasm (ca_algorithm this1) in
    let M1 :=
      H [HBytes (xor_loop (H [HBytes (toUint8Array (group_N (ca_group this1)))])
                          (H [HBytes (toUint8Array (group_g (ca_group this1)))]));
         HBytes (ca_I this1); HBytes (toUint8Array s); HBytes (toUint8Array A);
         HBytes (toUint8Array B); HBytes K] in
    authenticate wasm this1
    = (Return {| raw_M1 := M1; encoded_M1 := toHex M1 |}, set_M1 M1 this1).
Proof.
  intros E.
  assert (F : exists s A B K,
             truthy (ca_s this1) = Some s /\ truthy (ca_A this1) = Some A /\
             truthy (ca_B this1) = Some B /\ ca_K this1 = Some K).
  { revert E.
    cbv [exchange bind self call assign throw ret computeU computeS computeK computeX].
    run_method; intros E; try discriminate E;
      injection E as <-; fields; eauto 10. }
  destruct F as (s & A & B & K & Hs & HA & HB & HK).
  exists s, A, B, K. repeat (split; [assumption |]).
  cbv [authenticate bind self assign throw ret]. rewrite Hs, HA, HB, HK.
  reflexivity.
Qed.

Lemma exchange_then_authenticate_witness :
  exists s A B K,
    truthy (ca_s Sample.exchanged) = Some s /\
    truthy (ca_A Sample.exchanged) = Some A /\
    truthy (ca_B Sample.exchanged) = Some B /\
    ca_K Sample.exchanged = Some K /\
    let H := hash Sample.wasm (ca_algorithm Sample.exchanged) in
    let M1 :=
      H [HBytes (xor_loop
                   (H [HBytes (toUint8Array (group_N (ca_group Sample.exchanged)))])
                   (H [HBytes (toUint8Array (group_g (ca_group Sample.exchanged)))]));
         HBytes (ca_I Sample.exchanged); HBytes (toUint8Array s);
         HBytes (toUint8Array A); HBytes (toUint8Array B); HBytes K] in
    authenticate Sample.wasm Sample.exchanged
    = (Return {| raw_M1 := M1; encoded_M1 := toHex M1 |},
       set_M1 M1 Sample.exchanged).
Proof.
  apply (exchange_then_authenticate Sample.wasm (Bytes [x02]) (Bytes [x2a])
           Sample.initialized Sample.exchanged).
  vm_compute; reflexivity.
Defined.

(** [exchange] never assigns [a], [A] or [M1], and never touches the
    identity, the group or the algorithm. *)
Theorem exchange_footprint
    (wasm : HashWasm) (Bin sin : StringOrBytes) (this : ClientAuthenticate.t) :
  let this1 := snd (exchange wasm Bin sin this) in
  ca_I this1 = ca_I this /\ ca_p this1 = ca_p this /\
  ca_group this1 = ca_group this /\ ca_algorithm this1 = ca_algorithm this /\
  ca_a this1 = ca_a this /\ ca_A this1 = ca_A this /\ ca_M1 this1 = ca_M1 this.
Proof.
  cbv [exchange bind self call assign throw ret computeU computeS computeK computeX].
  run_method; cbn [snd]; fields; repeat split; reflexivity.
Qed.

(** A [B] that cannot be read as an integer (an empty array, a text that is
    not a hexadecimal literal) makes [exchange] throw the error of the
    conversion, a native [SyntaxError] and not an [SRPError]; nothing is
    assigned. *)
Theorem exchange_undecodable_B
    (wasm : HashWasm) (this : ClientAuthenticate.t) (Bin sin : StringOrBytes)
    (A : Z) (e : exn) :
  truthy (ca_A this) = Some A ->
  (let* b := decode Bin in toBigInt b) = Throw e ->
  exchange wasm Bin sin this = (Throw e, this) /\ e = SyntaxError.
Proof.
  intros HA Hno. cbv [exchange bind self call assign throw ret].
  rewrite HA.
  destruct (decode_cases Bin) as [[b Hb] | Hb]; rewrite Hb in Hno |- *.
  - cbn [cbind] in Hno.
    destruct (toBigInt_cases b) as [[n Hn] | Hn]; rewrite Hn in Hno |- *;
      [discriminate |].
    injection Hno as <-. split; reflexivity.
  - cbn [cbind] in Hno. injection Hno as <-. split; reflexivity.
Qed.

Lemma exchange_undecodable_B_witness :
  exchange Sample.wasm (Bytes []) (Bytes [x2a]) Sample.initialized
  = (Throw SyntaxError, Sample.initialized) /\
  exchange Sample.wasm (Text "") (Bytes [x2a]) Sample.initialized
  = (Throw SyntaxError, Sample.initialized).
Proof.
  split.
  - apply (exchange_undecodable_B Sample.wasm Sample.initialized (Bytes [])
             (Bytes [x2a]) 8 SyntaxError); [vm_compute; reflexivity | reflexivity].
  - apply (exchange_undecodable_B Sample.wasm Sample.initialized (Text "")
             (Bytes [x2a]) 8 SyntaxError); [vm_compute; reflexivity | reflexivity].
Defined.

(** When H(A, B) is the integer 0, [exchange] throws the [SRPError] about
    u = 0 after it has assigned [B], [s] and [u]; [S] and [K] keep what
    they held before the call. *)
Theorem exchange_rejects_zero_u
    (wasm : HashWasm) (this : ClientAuthenticate.t) (Bin sin : StringOrBytes)
    (A : Z) (Bbytes sbytes : Uint8Array) (B s : Z) :
  truthy (ca_A this) = Some A ->
  decode Bin = Return Bbytes -> toBigInt Bbytes = Return B -> B <> 0 ->
  decode sin = Return sbytes -> toBigInt sbytes = Return s ->
  toBigInt (hash wasm (ca_algorithm this)
              [HBytes (toUint8Array A); HBytes (toUint8Array B)]) = Return 0 ->
  exchange wasm Bin sin this
  = (Throw (SRPError u_is_zero_message), set_u 0 (set_s s (set_B B this))).
Proof.
  intros HA HBin HB HB0 Hsin Hs Hu.
  cbv [exchange bind self call assign throw ret computeU].
  rewrite HA, HBin, HB, Hsin, Hs. fields.
  rewrite (is_0n_Some B HB0). fields.
  rewrite HA, (truthy_Some B HB0), Hu. fields. reflexivity.
Qed.

Lemma exchange_rejects_zero_u_witness :
  exchange Sample.wasm_zero (Bytes [x02]) (Bytes [x2a]) Sample.exchanged
  = (Throw (SRPError u_is_zero_message),
     set_u 0 (set_s 42 (set_B 2 Sample.exchanged))).
Proof.
  apply (exchange_rejects_zero_u Sample.wasm_zero Sample.exchanged
           (Bytes [x02]) (Bytes [x2a]) 8 [x02] [x2a] 2 42);
    solve [vm_compute; reflexivity | discriminate].
Defined.

(** A salt that decodes to the integer 0 is taken for a missing salt:
    [exchange] throws "s must be set before computing x" from [computeX],
    after it has assigned [B], [s] and [u]. *)
Theorem exchange_zero_salt
    (wasm : HashWasm) (this : ClientAuthenticate.t) (Bin sin : StringOrBytes)
    (A a : Z) (Bbytes sbytes : Uint8Array) (B u k : Z) :
  truthy (ca_A this) = Some A ->
  truthy (ca_a this) = Some a ->
  decode Bin = Return Bbytes -> toBigInt Bbytes = Return B -> B <> 0 ->
  decode sin = Return sbytes -> toBigInt sbytes = Return 0 ->
  toBigInt (hash wasm (ca_algorithm this)
              [HBytes (toUint8Array A); HBytes (toUint8Array B)]) = Return u ->
  u <> 0 ->
  toBigInt (hash wasm (ca_algorithm this)
              [HBytes (toUint8Array (group_N (ca_group this)));
               HBytes (toUint8Array (group_g (ca_group this)))]) = Return k ->
  exchange wasm Bin sin this
  = (Throw (SRPError "s must be set before computing x"),
     set_u u (set_s 0 (set_B B this))).
Proof.
  intros HA Ha HBin HB HB0 Hsin Hs Hu Hu0 Hk.
  cbv [exchange bind self call assign throw ret computeU computeS computeK computeX].
  rewrite HA, HBin, HB, Hsin, Hs. fields.
  rewrite (is_0n_Some B HB0). fields.
  rewrite HA, (truthy_Some B HB0), Hu. fields.
  rewrite (is_0n_Some u Hu0). fields.
  rewrite Ha, (truthy_Some B HB0), (truthy_Some u Hu0). fields.
  rewrite Hk. fields. reflexivity.
Qed.

Lemma exchange_zero_salt_witness :
  exchange Sample.wasm (Bytes [x02]) (Text "00") Sample.initialized
  = (Throw (SRPError "s must be set before computing x"),
     set_u 65 (set_s 0 (set_B 2 Sample.initialized))).
Proof.
  apply (exchange_zero_salt Sample.wasm Sample.initialized
           (Bytes [x02]) (Text "00") 8 6 [x02] [x00] 2 65 21);
    solve [vm_compute; reflexivity | discriminate].
Defined.



(** Random bytes that are all zero give a = 0: [init] still returns, with
    A = 1 whatever the group, and [computeS] then takes [a] for missing, so
    that an [exchange] with a valid [B] throws after it has assigned [B],
    [s] and [u]. *)
Theorem init_zero_randomness
    (wasm : HashWasm) (random256 : Uint8Array) (this : ClientAuthenticate.t)
    (Bin sin : StringOrBytes) (Bbytes sbytes : Uint8Array) (B s u : Z) :
  random256 <> [] -> big_endian random256 = 0 ->
  decode Bin = Return Bbytes -> toBigInt Bbytes = Return B -> B <> 0 ->
  decode sin = Return sbytes -> toBigInt sbytes = Return s ->
  toBigInt (hash wasm (ca_algorithm this)
              [HBytes (toUint8Array 1); HBytes (toUint8Array B)]) = Return u ->
  u <> 0 ->
  let this1 := set_A 1 (set_a 0 this) in
  init random256 this
  = (Return {| init_I := toString (ca_I this);
               init_raw_A := [x01];
               init_encoded_A := "01" |}, this1) /\
  exchange wasm Bin sin this1
  = (Throw (SRPError "a, B, and u must be set before computing S"),
     set_u u (set_s s (set_B B this1))).
Proof.
  intros Hne H0 HBin HB HB0 Hsin Hs Hu Hu0 this1.
  assert (Hr : toBigInt random256 = Return 0).
  { destruct random256 as [| b r]; [contradiction |].
    rewrite toBigInt_cons, H0. reflexivity. }
  split.
  - cbv [init computeA bind self call assign ret]. rewrite Hr. reflexivity.
  - assert (H1 : truthy (Some 1) = Some 1) by reflexivity.
    assert (H0' : truthy (Some 0) = None) by reflexivity.
    cbv [exchange bind self call assign throw ret computeU computeS].
    unfold this1. fields. rewrite H1, HBin, HB, Hsin, Hs. fields.
    rewrite (is_0n_Some B HB0). fields.
    rewrite H1, (truthy_Some B HB0), Hu. fields.
    rewrite (is_0n_Some u Hu0). fields. rewrite H0'. reflexivity.
Qed.

Lemma init_zero_randomness_witness :
  init [x00; x00] Sample.created
  = (Return {| init_I := "alice"; init_raw_A := [x01]; init_encoded_A := "01" |},
     set_A 1 (set_a 0 Sample.created)) /\
  exchange Sample.wasm (Bytes [x02]) (Bytes [x2a]) (set_A 1 (set_a 0 Sample.created))
  = (Throw (SRPError "a, B, and u must be set before computing S"),
     set_u 104 (set_s 42 (set_B 2 (set_A 1 (set_a 0 Sample.created))))).
Proof.
  apply (init_zero_randomness Sample.wasm [x00; x00] Sample.created
           (Bytes [x02]) (Bytes [x2a]) [x02] [x2a] 2 42 104);
    solve [vm_compute; reflexivity | discriminate].
Defined.

(** ** ClientSetup, and what the server makes of its result *)

Lemma fold_big_endian_ge (arr : Uint8Array) :
  forall acc, 0 <= acc ->
    acc <= fold_left (fun acc b => acc * 256 + byte_to_Z b) arr acc.
Proof.
  induction arr as [| b arr IH]; intros acc H; [cbn; lia |].
  cbn [fold_left]. pose proof (byte_to_Z_range b).
  etransitivity; [| apply IH]; lia.
Qed.

Lemma big_endian_first_byte (b : byte) (arr : Uint8Array) :
  byte_to_Z b <= big_endian (b :: arr).
Proof.
  unfold big_endian. cbn [fold_left]. pose proof (byte_to_Z_range b).
  etransitivity; [| apply fold_big_endian_ge]; lia.
Qed.

Lemma toHex_decoded_cons (b : byte) (arr : Uint8Array) :
  16 <= byte_to_Z b \/ arr = [] ->
  toUint8Array_str (toHex (b :: arr)) = Return (b :: arr).
Proof.
  intros H. unfold toUint8Array_str. rewrite startsWith0x_toHex.
  change (JS.BigInt ("0x" ++ toHex (b :: arr))) with (toBigInt (b :: arr)).
  rewrite toBigInt_cons. cbn [cbind]. f_equal. apply bytes_round_trip_cons. exact H.
Qed.

Lemma toUint8Array_again (n : Z) :
  0 <= n -> toUint8Array (big_endian (toUint8Array n)) = toUint8Array n.
Proof.
  intros Hn. destruct (toUint8Array_shape n Hn) as (b & arr & E & H).
  rewrite E. apply bytes_round_trip_cons. exact H.
Qed.



(** A digest that reads as the integer 0 is taken for a missing x: [init]
    throws "X has not been computed yet" from [computeV], with [x] stored
    and no [v]. *)
Theorem setup_init_zero_x (wasm : HashWasm) (this : ClientSetup.t) :
  ClientSetup.computeX wasm this = Return 0 ->
  ClientSetup.init wasm this
  = (Throw (SRPError "X has not been computed yet"), ClientSetup.set_x 0 this).
Proof.
  intros Hx. unfold ClientSetup.init. rewrite Hx. reflexivity.
Qed.

Lemma setup_init_zero_x_witness :
  ClientSetup.init Sample.wasm_zero Sample.setup
  = (Throw (SRPError "X has not been computed yet"),
     ClientSetup.set_x 0 Sample.setup).
Proof.
  apply (setup_init_zero_x Sample.wasm_zero Sample.setup). vm_compute; reflexivity.
Defined.

(** Setup and authentication derive the same x when the salt has one byte
    or starts with a byte that is 0x10 or more: the integer [exchange]
    stores for the salt is then written back by [computeX] as the bytes
    ClientSetup hashed. *)
Theorem setup_and_authenticate_same_x
    (wasm : HashWasm) (setup : ClientSetup.t) (client : ClientAuthenticate.t)
    (b : byte) (rest : Uint8Array) :
  ClientSetup.cs_s setup = b :: rest ->
  16 <= byte_to_Z b \/ rest = [] ->
  big_endian (b :: rest) <> 0 ->
  ca_I client = ClientSetup.cs_I setup ->
  ca_p client = ClientSetup.cs_p setup ->
  ca_algorithm client = ClientSetup.cs_algorithm setup ->
  ca_s client = Some (big_endian (b :: rest)) ->
  computeX wasm client = (ClientSetup.computeX wasm setup, client).
Proof.
  intros Hs Hb H0 HI Hp Halg Hcs.
  cbv [computeX bind self call throw]. unfold ClientSetup.computeX.
  rewrite Hcs, (truthy_Some _ H0), HI, Hp, Halg, Hs.
  rewrite (bytes_round_trip_cons b rest Hb). reflexivity.
Qed.

Lemma setup_and_authenticate_same_x_witness :
  computeX Sample.wasm
    (set_s 2752519 (ClientAuthenticate.new Sample.config))
  = (ClientSetup.computeX Sample.wasm Sample.setup,
     set_s 2752519 (ClientAuthenticate.new Sample.config)).
Proof.
  apply (setup_and_authenticate_same_x Sample.wasm Sample.setup
           (set_s 2752519 (ClientAuthenticate.new Sample.config)) x2a [x00; x07]);
    try reflexivity.
  - left. vm_compute; discriminate.
  - vm_compute; discriminate.
Defined.

Lemma odd_digits_positive (n : Z) :
  0 < n -> 0 < 16 * n - 15 * (n mod 16).
Proof.
  intros Hn. pose proof (Z.mod_le n 16 ltac:(lia) ltac:(lia)).
  pose proof (Z.mod_pos_bound n 16 ltac:(lia)). lia.
Qed.

(** The texts a ClientSetup returns, given to a ServerSetup: the
    constructor accepts them and keeps the salt bytes of the client, and
    [getCredentials] gives back the same two texts; [verify] returns that
    record unless the user name is empty or the verifier is zero.  (The
    salt has one byte or starts with a byte that is 0x10 or more; the group
    has a positive N and a non-negative g.) *)
Theorem setup_result_on_server
    (wasm : HashWasm) (setup setup1 : ClientSetup.t)
    (r : ClientSetup.ClientSetupResult) (b : byte) (rest : Uint8Array) :
  ClientSetup.init wasm setup = (Return r, setup1) ->
  ClientSetup.cs_s setup = b :: rest ->
  16 <= byte_to_Z b \/ rest = [] ->
  0 <= group_g (ClientSetup.cs_group setup) ->
  0 < group_N (ClientSetup.cs_group setup) ->
  let record := {| ServerSetup.username := ClientSetup.result_I r;
                   ServerSetup.salt := ClientSetup.encoded_s r;
                   ServerSetup.verifier := ClientSetup.encoded_v r |} in
  exists v,
    ServerSetup.new {| ServerSetup.I := ClientSetup.result_I r;
                       ServerSetup.s := Text (ClientSetup.encoded_s r);
                       ServerSetup.v := Text (ClientSetup.encoded_v r) |}
    = Return (ServerSetup.mk (ClientSetup.result_I r) (b :: rest) v) /\
    ServerSetup.getCredentials (ServerSetup.mk (ClientSetup.result_I r) (b :: rest) v)
    = Return record /\
    (ClientSetup.result_I r <> "" -> big_endian (b :: rest) <> 0 ->
     ClientSetup.encoded_v r <> "00" ->
     ServerSetup.verify (ServerSetup.mk (ClientSetup.result_I r) (b :: rest) v)
     = Return record).
Proof.
  intros E Hs Hb Hg HN record.
  unfold ClientSetup.init in E.
  destruct (ClientSetup.computeX wasm setup) as [x | e |] eqn:Ex;
    try (injection E as E _; discriminate E).
  pose proof (toBigInt_nonneg _ _ Ex) as Hx.
  unfold ClientSetup.computeV in E.
  cbn [ClientSetup.cs_x ClientSetup.cs_group ClientSetup.set_x] in E.
  destruct (truthy (Some x)) as [x' |] eqn:Et;
    [| injection E as E _; discriminate E].
  assert (x' = x) by (unfold truthy in Et; destruct (x =? 0); congruence).
  subst x'.
  destruct (powMod (group_g (ClientSetup.cs_group setup)) x
              (group_N (ClientSetup.cs_group setup))) as [v | e |] eqn:Ev;
    try (injection E as E _; discriminate E).
  assert (Hv : 0 <= v).
  { unfold powMod in Ev.
    assert (H1 : 0 <= 1) by lia.
    exact (proj1 (powMod_loop_range _ _ _ _ _ _ HN Hx H1 Hg Ev)). }
  injection E as <- _. subst record.
  cbn [ClientSetup.result_I ClientSetup.encoded_s ClientSetup.encoded_v
       ClientSetup.cs_s ClientSetup.cs_I ClientSetup.set_v ClientSetup.set_x].
  rewrite Hs.
  exists (big_endian (toUint8Array v)).
  assert (Hnew : JS.BigInt ("0x" ++ toHex (toUint8Array v))
                 = Return (big_endian (toUint8Array v))).
  { change (JS.BigInt ("0x" ++ toHex (toUint8Array v)))
      with (toBigInt (toUint8Array v)).
    destruct (toUint8Array_shape v Hv) as (b0 & arr & -> & _).
    apply toBigInt_cons. }
  assert (Hrec : ServerSetup.getCredentials
                   (ServerSetup.mk (toString (ClientSetup.cs_I setup)) (b :: rest)
                      (big_endian (toUint8Array v)))
                 = Return {| ServerSetup.username := toString (ClientSetup.cs_I setup);
                             ServerSetup.salt := toHex (b :: rest);
                             ServerSetup.verifier := toHex (toUint8Array v) |}).
  { unfold ServerSetup.getCredentials, toHex_bigint.
    cbn [ServerSetup.ss_I ServerSetup.ss_s ServerSetup.ss_v].
    rewrite (toUint8Array_again v Hv). reflexivity. }
  split; [| split].
  - unfold ServerSetup.new.
    cbn [ServerSetup.I ServerSetup.s ServerSetup.v decode].
    rewrite (toHex_decoded_cons b rest Hb). cbn [cbind].
    rewrite Hnew. reflexivity.
  - exact Hrec.
  - intros HI Hs0 Hv0. rewrite verify_outcome.
    cbn [ServerSetup.ss_I ServerSetup.ss_s ServerSetup.ss_v].
    destruct (Nat.eqb (String.length (toString (ClientSetup.cs_I setup))) 0) eqn:EI;
      [apply string_length_0 in EI; contradiction |].
    destruct (Z.eqb_spec (big_endian (b :: rest)) 0) as [| _]; [contradiction |].
    destruct (Z.eqb_spec (big_endian (toUint8Array v)) 0) as [E0 | _]; [| exact Hrec].
    exfalso.
    assert (Hbig : toBigInt (toUint8Array v) = Return (big_endian (toUint8Array v))).
    { destruct (toUint8Array_shape v Hv) as (b0 & arr & -> & _). apply toBigInt_cons. }
    rewrite (toBigInt_toUint8Array v Hv) in Hbig.
    destruct (Z.eq_dec v 0) as [-> | Hne]; [apply Hv0; reflexivity |].
    pose proof (odd_digits_positive v ltac:(lia)).
    destruct (Nat.even (String.length (JS.toString16 v))).
    + assert (big_endian (toUint8Array v) = v) by congruence. lia.
    + assert (big_endian (toUint8Array v) = 16 * v - 15 * (v mod 16))
        by congruence.
      lia.
Qed.

Lemma setup_result_on_server_witness :
  exists v,
    ServerSetup.new {| ServerSetup.I := "alice";
                       ServerSetup.s := Text "2a0007";
                       ServerSetup.v := Text "10" |}
    = Return (ServerSetup.mk "alice" [x2a; x00; x07] v) /\
    ServerSetup.getCredentials (ServerSetup.mk "alice" [x2a; x00; x07] v)
    = Return {| ServerSetup.username := "alice";
                ServerSetup.salt := "2a0007";
                ServerSetup.verifier := "10" |}.
Proof.
  destruct (setup_result_on_server Sample.wasm Sample.setup
              (ClientSetup.set_v 16 (ClientSetup.set_x 140 Sample.setup))
              {| ClientSetup.result_I := "alice";
                 ClientSetup.raw_v := [x10];
                 ClientSetup.raw_s := [x2a; x00; x07];
                 ClientSetup.encoded_v := "10";
                 ClientSetup.encoded_s := "2a0007" |}
              x2a [x00; x07])
    as (v & Hnew & Hrec & _).
  - vm_compute; reflexivity.
  - reflexivity.
  - left. vm_compute; discriminate.
  - vm_compute; discriminate.
  - reflexivity.
  - exists v. split; [exact Hnew | exact Hrec].
Defined.

(** ** ServerSetup's constructor *)

Lemma hex_literal_tail_nonneg (text : string) :
  forall acc n, 0 <= acc -> JS.hex_literal_tail acc text = Some n -> 0 <= n.
Proof.
  induction text as [| c r IH]; intros acc n Hacc E.
  - injection E as <-. exact Hacc.
  - cbn [JS.hex_literal_tail] in E. pose proof (hex_value_nonneg c) as Hc.
    destruct (JS.hex_value c) as [d |].
    + apply (IH (acc * 16 + d) n); [lia | exact E].
    + destruct (JS.all_white (String c r)); [| discriminate].
      injection E as <-. exact Hacc.
Qed.

Lemma BigInt_nonneg (text : string) (n : Z) :
  JS.BigInt text = Return n -> 0 <= n.
Proof.
  unfold JS.BigInt. intros E.
  repeat match type of E with
         | context [match ?x with _ => _ end] => destruct x eqn:?
         end; try discriminate E.
  match goal with
  | Hv : JS.hex_value ?c = Some ?d, Ht : JS.hex_literal_tail ?d ?r = Some ?m |- _ =>
      pose proof (hex_value_nonneg c) as Hc; rewrite Hv in Hc;
      pose proof (hex_literal_tail_nonneg r d m Hc Ht)
  end.
  congruence.
Qed.

(** An argument given as hexadecimal text goes through [toUint8Array]
    before [toBigInt]: a text whose value n has an odd number of digits,
    three or more, is read as 16 n - 15 (n mod 16) and not as n (["123"] is
    read as 0x1203), while the same value given as bytes is read as n. *)
Theorem text_argument_integer (text : string) (n : Z) :
  JS.BigInt (if JS.startsWith0x text then text else "0x" ++ text) = Return n ->
  (let* b := decode (Text text) in toBigInt b)
  = Return (if Nat.even (String.length (JS.toString16 n)) then n
            else 16 * n - 15 * (n mod 16)).
Proof.
  intros E. pose proof (BigInt_nonneg _ _ E) as Hn.
  cbn [decode]. unfold toUint8Array_str. rewrite E. cbn [cbind].
  apply toBigInt_toUint8Array. exact Hn.
Qed.

Lemma text_argument_integer_witness :
  (let* b := decode (Text "123") in toBigInt b) = Return 4611 /\
  (let* b := decode (Bytes [x01; x23]) in toBigInt b) = Return 291.
Proof.
  split; [| reflexivity].
  exact (text_argument_integer "123" 291 eq_refl).
Defined.

(** The constructor of ServerSetup keeps a salt given as bytes as it is,
    also when it is empty, and reads a verifier given as bytes with
    [toBigInt]: an empty verifier array makes the constructor itself throw
    a [SyntaxError], before any call of [verify]. *)
Theorem server_new_from_bytes (I : string) (s v : Uint8Array) :
  (v <> [] ->
   ServerSetup.new {| ServerSetup.I := I; ServerSetup.s := Bytes s;
                      ServerSetup.v := Bytes v |}
   = Return (ServerSetup.mk I s (big_endian v))) /\
  ServerSetup.new {| ServerSetup.I := I; ServerSetup.s := Bytes s;
                     ServerSetup.v := Bytes [] |}
  = Throw SyntaxError /\
  ServerSetup.new {| ServerSetup.I := I; ServerSetup.s := Bytes s;
                     ServerSetup.v := Text "" |}
  = Throw SyntaxError.
Proof.
  split; [| split; reflexivity].
  intros Hv. destruct v as [| b v]; [contradiction |].
  unfold ServerSetup.new. cbn [ServerSetup.I ServerSetup.s ServerSetup.v decode cbind].
  rewrite toBigInt_cons. reflexivity.
Qed.

Lemma server_new_from_bytes_witness :
  ServerSetup.new {| ServerSetup.I := "alice"; ServerSetup.s := Bytes [];
                     ServerSetup.v := Bytes [x01; x23] |}
  = Return (ServerSetup.mk "alice" [] 291).
Proof.
  exact (proj1 (server_new_from_bytes "alice" [] [x01; x23]) ltac:(discriminate)).
Defined.
